(** * maxheap: an array-backed max heap and a k-way merge built on it

    Shallow embedding of [src/maxheap.py].

    A Python list used as the heap is a [list A]; every indexing operation
    of the source is a primitive of a small state-and-exception monad, so
    that an out-of-range access is an [IndexError] in the model exactly
    where it is one in Python.  The [while] loops are fuel-driven; the
    amount of fuel each routine hands to its loop is part of the routine,
    and running out of it is a third outcome, distinct from returning and
    from raising. *)

From Stdlib Require Import ZArith QArith String Sorted.
From stdpp Require Import base tactics option list sorting.

Local Open Scope nat_scope.

(** ** Ordering interface

    The source compares elements with [<] and [>] only.  [ltb] stands for
    Python's [<]; [a > b] is read as [b < a], which is how the reflected
    operator behaves on numbers, strings and lists. *)

Class Ordered (A : Type) := ltb : A → A → bool.
Arguments ltb {A _} _ _ : simpl never.

Definition gtb {A} `{Ordered A} (a b : A) : bool := ltb b a.

(** [geb a b] is the [a >= b] of the heap invariant: [b] is not above [a]. *)
Definition geb {A} `{Ordered A} (a b : A) : bool := negb (ltb a b).
Definition ge {A} `{Ordered A} (a b : A) : Prop := ltb a b = false.

(** Laws of a strict weak order, enough for the heap invariant. *)
Class WeakOrder (A : Type) `{Ordered A} : Prop := {
  ltb_asym : ∀ a b : A, ltb a b = true → ltb b a = false;
  ltb_negtrans : ∀ a b c : A, ltb a b = false → ltb b c = false → ltb a c = false
}.

(** A total order: elements that compare neither way are the same. *)
Class TotalOrder (A : Type) `{Ordered A} : Prop := {
  total_weak :: WeakOrder A;
  ltb_total : ∀ a b : A, ltb a b = false → ltb b a = false → a = b
}.

#[global] Instance Z_ordered : Ordered Z := Z.ltb.
#[global] Instance nat_ordered : Ordered nat := Nat.ltb.
(** Rationals stand for real-valued elements. *)
#[global] Instance Q_ordered : Ordered Q := fun a b => negb (Qle_bool b a).
(** Elements compared by a priority alone, as objects whose [__lt__] reads
    one field: the second component is carried along and never compared. *)
Definition by_priority : Ordered (Z * Z) := fun a b => Z.ltb a.1 b.1.

(** ** Exceptions and outcomes *)

Inductive exn := IndexError.

Inductive outcome (S R : Type) :=
| Ok (r : R) (s : S)        (* normal return, with the final store *)
| Raise (e : exn) (s : S)   (* exception, with the store at that moment *)
| OutOfFuel.
Arguments Ok {S R} r s.
Arguments Raise {S R} e s.
Arguments OutOfFuel {S R}.

Definition M (S R : Type) : Type := S → outcome S R.

Definition ret {S R} (r : R) : M S R := fun s => Ok r s.
Definition bind {S R R'} (m : M S R) (f : R → M S R') : M S R' :=
  fun s => match m s with
           | Ok r s' => f r s'
           | Raise e s' => Raise e s'
           | OutOfFuel => OutOfFuel
           end.
Definition diverge {S R} : M S R := fun _ => OutOfFuel.

Notation "x <- m ;; k" := (bind m (fun x => k))
  (at level 200, m at level 99, k at level 200, right associativity).
Notation "m ;;; k" := (bind m (fun _ => k))
  (at level 200, k at level 200, right associativity).

(** ** Python list primitives *)

Section ListPrims.
Context {A : Type}.

(** [len(heap)] *)
Definition len : M (list A) nat := fun h => Ok (length h) h.

(** [heap[i]] for a non-negative [i] *)
Definition getitem (i : nat) : M (list A) A :=
  fun h => match h !! i with
           | Some x => Ok x h
           | None => Raise IndexError h
           end.

(** [heap[i] = v] for a non-negative [i] *)
Definition setitem (i : nat) (v : A) : M (list A) unit :=
  fun h => if decide (i < length h) then Ok tt (<[i:=v]> h)
           else Raise IndexError h.

(** [heap.append(v)] *)
Definition append (v : A) : M (list A) unit := fun h => Ok tt (h ++ [v]).

(** [heap.pop()] *)
Definition pop : M (list A) A :=
  fun h => match last h with
           | Some x => Ok x (take (length h - 1) h)
           | None => Raise IndexError h
           end.
End ListPrims.

(** ** Heap primitives *)

Section Heap.
Context {A : Type} `{Ordered A}.

(** The [while pos > 0] loop of [_siftup]; returns the final [pos]. *)
Fixpoint siftup_loop (fuel : nat) (cur_item : A) (pos : nat) : M (list A) nat :=
  match fuel with
  | 0 => diverge
  | S fuel' =>
      if 0 <? pos then
        let parent_pos := Nat.shiftr (pos - 1) 1 in
        parent <- getitem parent_pos ;;
        if gtb cur_item parent then
          parent' <- getitem parent_pos ;;
          setitem pos parent' ;;;
          siftup_loop fuel' cur_item parent_pos
        else ret pos
      else ret pos
  end.

(** [pos] is a position counted from 0, as the heap functions pass it;
    the loop is given the length of the list as fuel. *)
Definition _siftup (pos : nat) : M (list A) unit :=
  cur_item <- getitem pos ;;
  n <- len ;;
  pos' <- siftup_loop n cur_item pos ;;
  setitem pos' cur_item.

(** The [while child_pos < len(heap)] loop of [_siftdown]; returns the
    final [pos]. *)
Fixpoint siftdown_loop (fuel : nat) (cur_item : A) (pos child_pos : nat)
  : M (list A) nat :=
  match fuel with
  | 0 => diverge
  | S fuel' =>
      n <- len ;;
      if child_pos <? n then
        let right_pos := child_pos + 1 in
        n' <- len ;;
        right_wins <- (if right_pos <? n' then
                         l <- getitem child_pos ;;
                         r <- getitem right_pos ;;
                         ret (ltb l r)
                       else ret false) ;;
        let child_pos := if right_wins : bool then right_pos else child_pos in
        child <- getitem child_pos ;;
        if ltb cur_item child then
          child' <- getitem child_pos ;;
          setitem pos child' ;;;
          siftdown_loop fuel' cur_item child_pos (2 * child_pos + 1)
        else ret pos
      else ret pos
  end.

(** [pos] is a position counted from 0, as the heap functions pass it;
    the loop is given the length of the list as fuel. *)
Definition _siftdown (pos : nat) : M (list A) unit :=
  cur_item <- getitem pos ;;
  n <- len ;;
  pos' <- siftdown_loop n cur_item pos (2 * pos + 1) ;;
  setitem pos' cur_item.

Definition heappush (item : A) : M (list A) unit :=
  append item ;;;
  n <- len ;;
  _siftup (n - 1).

Definition heappop : M (list A) A :=
  lastelt <- pop ;;
  n <- len ;;
  if 0 <? n then
    return_item <- getitem 0 ;;
    setitem 0 lastelt ;;;
    _siftdown 0 ;;;
    ret return_item
  else ret lastelt.

Definition heapreplace (item : A) : M (list A) A :=
  return_item <- getitem 0 ;;
  setitem 0 item ;;;
  _siftdown 0 ;;;
  ret return_item.

Definition heappushpop (item : A) : M (list A) A :=
  n <- len ;;
  above <- (if 0 <? n then root <- getitem 0 ;; ret (gtb root item)
            else ret false) ;;
  if above : bool then
    root <- getitem 0 ;;
    setitem 0 item ;;;
    _siftdown 0 ;;;
    ret root
  else ret item.

(** [for i in reversed(range(k))]: [i] runs from [k - 1] down to [0]. *)
Fixpoint heapify_loop (k : nat) : M (list A) unit :=
  match k with
  | 0 => ret tt
  | S i => _siftdown i ;;; heapify_loop i
  end.

Definition heapify : M (list A) unit :=
  n <- len ;;
  heapify_loop (n / 2).

(** A client loop: [while heap: out.append(heappop(heap))], with the
    number of rounds fixed by the length on entry. *)
Fixpoint pop_rounds (k : nat) : M (list A) (list A) :=
  match k with
  | 0 => ret []
  | S k' => x <- heappop ;; xs <- pop_rounds k' ;; ret (x :: xs)
  end.

Definition pop_all : M (list A) (list A) :=
  n <- len ;;
  pop_rounds n.
End Heap.

(** ** Merge

    An input iterable is the finite sequence of items its iterator will
    produce; the bound [__next__] kept in a record is the part of that
    sequence not yet pulled, and pulling from an empty one is
    [StopIteration].  Every record owns its cursor.

    Python compares the list-shaped records item by item: the first pair
    of items that are not [==] decides.  The order index is the second
    item and differs between any two records of one merge, so the
    comparison never goes past it; an object compared with itself is not
    below itself. *)

Class PyEq (A : Type) := eqb : A → A → bool.
Arguments eqb {A _} _ _ : simpl never.

Class EqDecides (A : Type) `{PyEq A} : Prop :=
  eqb_eq : ∀ a b : A, eqb a b = true ↔ a = b.

#[global] Instance Z_pyeq : PyEq Z := Z.eqb.
#[global] Instance nat_pyeq : PyEq nat := Nat.eqb.
#[global] Instance string_ordered : Ordered string := String.ltb.
#[global] Instance string_pyeq : PyEq string := String.eqb.

(** [[head, order, next]]: the record of the branch without a key. *)
Definition rec3 (V : Type) : Type := V * nat * list V.
(** [[key(value), order, value, next]]: the record of the branch with a key. *)
Definition rec4 (K V : Type) : Type := K * nat * V * list V.

(** The first two items of two records, compared the way Python compares
    two lists. *)
Definition lex_ltb {K} `{Ordered K} `{PyEq K} (k : K) (o : nat) (k' : K) (o' : nat)
  : bool :=
  if eqb k k' then (if Nat.eqb o o' then false else Nat.ltb o o')
  else ltb k k'.

#[global] Instance rec3_ordered {V} `{Ordered V} `{PyEq V} : Ordered (rec3 V) :=
  fun r r' => let '(v, o, _) := r in let '(v', o', _) := r' in lex_ltb v o v' o'.

#[global] Instance rec4_ordered {K V} `{Ordered K} `{PyEq K} : Ordered (rec4 K V) :=
  fun r r' => let '(k, o, _, _) := r in let '(k', o', _, _) := r' in
              lex_ltb k o k' o'.

(** The loops of both branches are the same program over the two record
    layouts; they are written once, over what they do with a record. *)
Section MergeLoops.
Context {V Rec : Type} `{Ordered Rec}.
(** the value a record yields: [s[0]], resp. [s[2]] *)
Variable current : Rec → V.
(** its order index *)
Variable order_of : Rec → nat.
(** what [next] still has to give *)
Variable cursor : Rec → list V.
(** the record after [s[0] = next()], resp. [s[0] = key(value)] and
    [s[2] = value]: the value pulled and what is left of the cursor *)
Variable advance : Rec → V → list V → Rec.

(** [while True:] inside the [try]; it is left by the [StopIteration] of
    [next()], with which it returns.  A yield is recorded with the order
    index of the record it is read from; [merge] keeps the values only. *)
Fixpoint serve_loop (fuel : nat) : M (list Rec) (list (V * nat)) :=
  match fuel with
  | 0 => diverge
  | S fuel' =>
      s <- getitem 0 ;;
      (* yield value *)
      match cursor s with
      | [] => ret [(current s, order_of s)]
      | v :: more =>
          (* [s] is [h[0]] itself: the assignment is seen through [h] *)
          let s' := advance s v more in
          setitem 0 s' ;;;
          heapreplace s' ;;;
          out <- serve_loop fuel' ;;
          ret ((current s, order_of s) :: out)
      end
  end.

(** [while len(h) > 1:] with its [try] ... [except StopIteration:
    heappop(h)]. *)
Fixpoint merge_loop (fuel : nat) : M (list Rec) (list (V * nat)) :=
  match fuel with
  | 0 => diverge
  | S fuel' =>
      n <- len ;;
      if 1 <? n then
        out <- serve_loop fuel' ;;
        heappop ;;;
        rest <- merge_loop fuel' ;;
        ret (out ++ rest)
      else ret []
  end.

(** [if h:] the last record is yielded and its cursor drained. *)
Definition drain_last : M (list Rec) (list (V * nat)) :=
  n <- len ;;
  if 0 <? n then
    s <- getitem 0 ;;
    ret ((current s, order_of s) :: map (fun v => (v, order_of s)) (cursor s))
  else ret [].

Definition merge_tail (fuel : nat) : M (list Rec) (list (V * nat)) :=
  out <- merge_loop fuel ;;
  rest <- drain_last ;;
  ret (out ++ rest).
End MergeLoops.

Section MergeNoKey.
Context {V : Type} `{Ordered V} `{PyEq V}.

Definition current3 (s : rec3 V) : V := s.1.1.
Definition order3 (s : rec3 V) : nat := s.1.2.
Definition cursor3 (s : rec3 V) : list V := s.2.
Definition advance3 (s : rec3 V) (v : V) (more : list V) : rec3 V :=
  (v, order3 s, more).

(** [for order, it in enumerate(map(iter, iterables))] of the branch
    without a key; [heapify(h)] is inside the loop body. *)
Fixpoint fill3 (order : nat) (iterables : list (list V)) : M (list (rec3 V)) unit :=
  match iterables with
  | [] => ret tt
  | it :: rest =>
      match it with
      | [] => ret tt
      | v :: more => append (v, order, more)
      end ;;;
      heapify ;;;
      fill3 (S order) rest
  end.

Definition merge_nokey_events (iterables : list (list V))
  : M (list (rec3 V)) (list (V * nat)) :=
  fill3 0 iterables ;;;
  merge_tail current3 order3 cursor3 advance3 (S (length (concat iterables))).
End MergeNoKey.

Section MergeKey.
Context {K V : Type} `{Ordered K} `{PyEq K}.
Variable key : V → K.

Definition current4 (s : rec4 K V) : V := s.1.2.
Definition order4 (s : rec4 K V) : nat := s.1.1.2.
Definition cursor4 (s : rec4 K V) : list V := s.2.
Definition advance4 (s : rec4 K V) (v : V) (more : list V) : rec4 K V :=
  (key v, order4 s, v, more).

(** The same loop of the branch with a key; [heapify(h)] follows it. *)
Fixpoint fill4 (order : nat) (iterables : list (list V)) : M (list (rec4 K V)) unit :=
  match iterables with
  | [] => ret tt
  | it :: rest =>
      match it with
      | [] => ret tt
      | v :: more => append (key v, order, v, more)
      end ;;;
      fill4 (S order) rest
  end.

Definition merge_key_events (iterables : list (list V))
  : M (list (rec4 K V)) (list (V * nat)) :=
  fill4 0 iterables ;;;
  heapify ;;;
  merge_tail current4 order4 cursor4 advance4 (S (length (concat iterables))).
End MergeKey.

(** What a consumer of the generator sees: the values yielded, or the
    exception that ended it.  [h] is local to the call and starts empty. *)
Inductive result (R : Type) := Yields (r : R) | Fails (e : exn) | Hangs.
Arguments Yields {R} r.
Arguments Fails {R} e.
Arguments Hangs {R}.

Definition collect {S V} (m : M (list S) (list (V * nat))) : result (list V) :=
  match m [] with
  | Ok evs _ => Yields (map fst evs)
  | Raise e _ => Fails e
  | OutOfFuel => Hangs
  end.

(** The branch [if key is None:] of [merge], to its [return]. *)
Definition merge_nokey {V} `{Ordered V} `{PyEq V} (iterables : list (list V))
  : result (list V) :=
  collect (merge_nokey_events iterables).

(** The rest of [merge], run when a key is given. *)
Definition merge_key {K V} `{Ordered K} `{PyEq K} (key : V → K)
  (iterables : list (list V)) : result (list V) :=
  collect (merge_key_events key iterables).

(** [merge(iterables..., key=None, reverse=False)].  The loops are given
    one more unit of fuel than the inputs have items.  [reverse] is
    accepted and never read. *)
Definition merge {K V} `{Ordered V} `{PyEq V} `{Ordered K} `{PyEq K}
  (iterables : list (list V)) (key : option (V → K)) (reverse : bool)
  : result (list V) :=
  match key with
  | None => merge_nokey iterables
  | Some key => merge_key key iterables
  end.


(** * Specification vocabulary *)

Section HeapVocabulary.
Context {A : Type} `{Ordered A}.
Implicit Types (h : list A) (x : A).

(** [a[k] >= a[2*k+1]] and [a[k] >= a[2*k+2]] wherever the indices are
    in range. *)
Definition is_max_heap h : Prop :=
  ∀ i x, h !! i = Some x →
    (∀ y, h !! (2 * i + 1) = Some y → ge x y)
    ∧ (∀ y, h !! (2 * i + 2) = Some y → ge x y).

(** The same, as a check that can be run. *)
Definition heap_okb h (i : nat) : bool :=
  match h !! i with
  | None => true
  | Some x =>
      match h !! (2 * i + 1) with Some y => geb x y | None => true end
      && match h !! (2 * i + 2) with Some y => geb x y | None => true end
  end.

Definition is_max_heapb h : bool := forallb (heap_okb h) (seq 0 (length h)).

Definition child_of (c i : nat) : Prop := c = 2 * i + 1 ∨ c = 2 * i + 2.

(** The invariant at the parents from [k] on. *)
Definition heap_from (k : nat) h : Prop :=
  ∀ i c x y, k ≤ i → child_of c i → h !! i = Some x → h !! c = Some y → ge x y.

(** The child [_siftdown] looks at: the right one when it is there and
    the left one is below it. *)
Definition pick_child h (child_pos : nat) : nat :=
  match h !! child_pos, h !! (child_pos + 1) with
  | Some l, Some r => if ltb l r then child_pos + 1 else child_pos
  | _, _ => child_pos
  end.
End HeapVocabulary.

(** Descending by key: no item is below a later one. *)
Definition key_ge {K V} `{Ordered K} (key : V → K) (a b : V) : Prop :=
  ge (key a) (key b).

Definition descending_by {K V} `{Ordered K} (key : V → K) (l : list V) : Prop :=
  StronglySorted (key_ge key) l.

Fixpoint descending_byb {K V} `{Ordered K} (key : V → K) (l : list V) : bool :=
  match l with
  | [] => true
  | a :: t => forallb (fun b => geb (key a) (key b)) t && descending_byb key t
  end.

(** Without a key an item is its own key. *)
Definition own_key {V} (v : V) : V := v.

Definition descending {A} `{Ordered A} (l : list A) : Prop :=
  descending_by own_key l.

Definition descendingb {A} `{Ordered A} (l : list A) : bool :=
  descending_byb own_key l.

(** The items of input number [order], [order + 1], ..., each with the
    index of its input. *)
Fixpoint tagged {V} (order : nat) (iterables : list (list V)) : list (V * nat) :=
  match iterables with
  | [] => []
  | it :: rest => map (fun v => (v, order)) it ++ tagged (S order) rest
  end.

(** What a record has still to give: its current value and its cursor. *)
Definition events_of {V Rec} (current : Rec → V) (order_of : Rec → nat)
  (cursor : Rec → list V) (r : Rec) : list (V * nat) :=
  (current r, order_of r) :: map (fun v => (v, order_of r)) (cursor r).

Definition pending {V Rec} (current : Rec → V) (order_of : Rec → nat)
  (cursor : Rec → list V) (h : list Rec) : list (V * nat) :=
  h ≫= events_of current order_of cursor.

Definition pending3 {V} (h : list (rec3 V)) : list (V * nat) :=
  pending current3 order3 cursor3 h.

Definition pending4 {K V} (h : list (rec4 K V)) : list (V * nat) :=
  pending current4 order4 cursor4 h.

(** [e] is not below [e'] when they are compared as the records that
    yield them are: by key, then by order index. *)
Definition ev_ge {K V} `{Ordered K} `{PyEq K} (key : V → K) (e e' : V * nat) : Prop :=
  lex_ltb (key e.1) e.2 (key e'.1) e'.2 = false.

(** A record of the heap: its first item is the key of its value, and
    what it has still to give is descending. *)
Definition good {K V Rec} `{Ordered K} (key : V → K) (rkey : Rec → K)
  (current : Rec → V) (cursor : Rec → list V) (r : Rec) : Prop :=
  rkey r = key (current r) ∧ descending_by key (current r :: cursor r).

Definition good3 {V} `{Ordered V} (r : rec3 V) : Prop :=
  good own_key current3 current3 cursor3 r.

Definition rkey4 {K V} (r : rec4 K V) : K := r.1.1.1.

Definition good4 {K V} `{Ordered K} (key : V → K) (r : rec4 K V) : Prop :=
  good key rkey4 current4 cursor4 r.

(** [heap_from], as a check that can be run. *)
Definition heap_fromb {A} `{Ordered A} (k : nat) (h : list A) : bool :=
  forallb (heap_okb h) (seq k (length h - k)).

(** The items yielded from input number [o], in the order of the yields. *)
Definition lane {V} (o : nat) (evs : list (V * nat)) : list V :=
  map fst (filter (fun e => e.2 = o) evs).

(** * Verification *)

(** ** The order laws at the integers and the naturals *)

Ltac order_by_lia :=
  unfold ltb, eqb, Z_ordered, nat_ordered; intros;
  repeat match goal with
    | H : context [Z.ltb ?a ?b] |- _ => destruct (Z.ltb_spec a b)
    | |- context [Z.ltb ?a ?b] => destruct (Z.ltb_spec a b)
    | H : context [Nat.ltb ?a ?b] |- _ => destruct (Nat.ltb_spec a b)
    | |- context [Nat.ltb ?a ?b] => destruct (Nat.ltb_spec a b)
    end; try done; lia.

#[global] Instance Z_weak : WeakOrder Z.
Proof. split; order_by_lia. Qed.
#[global] Instance Z_total : TotalOrder Z.
Proof. split; [apply _|]. order_by_lia. Qed.
#[global] Instance Z_eq_decides : EqDecides Z.
Proof. intros a b. unfold eqb, Z_pyeq. apply Z.eqb_eq. Qed.
#[global] Instance Q_weak : WeakOrder Q.
Proof.
  split; unfold ltb, Q_ordered.
  - intros a b Hab. apply negb_true_iff in Hab. apply negb_false_iff.
    apply Qle_bool_iff. apply Qlt_le_weak, Qnot_le_lt.
    intros Hle. apply Qle_bool_iff in Hle. congruence.
  - intros a b c Hab Hbc. apply negb_false_iff in Hab, Hbc. apply negb_false_iff.
    apply Qle_bool_iff in Hab, Hbc. apply Qle_bool_iff. by eapply Qle_trans.
Qed.
#[global] Instance nat_weak : WeakOrder nat.
Proof. split; order_by_lia. Qed.
#[global] Instance nat_total : TotalOrder nat.
Proof. split; [apply _|]. order_by_lia. Qed.
#[global] Instance nat_eq_decides : EqDecides nat.
Proof. intros a b. unfold eqb, nat_pyeq. apply Nat.eqb_eq. Qed.

Section OrderFacts.
Context {A : Type} `{WeakOrder A}.

Lemma ltb_irrefl (a : A) : ltb a a = false.
Proof.
  destruct (ltb a a) eqn:E; [|done].
  pose proof (ltb_asym _ _ E). congruence.
Qed.

Lemma ge_refl (a : A) : ge a a.
Proof. apply ltb_irrefl. Qed.

Lemma ge_trans (a b c : A) : ge a b → ge b c → ge a c.
Proof. unfold ge. apply ltb_negtrans. Qed.

Lemma ltb_ge (a b : A) : ltb a b = true → ge b a.
Proof. apply ltb_asym. Qed.
End OrderFacts.

(** ** Running the primitives *)

Section PrimFacts.
Context {A : Type}.
Implicit Types (h : list A) (x : A).

Lemma bind_Ok {R R'} (m : M (list A) R) (f : R → M (list A) R') h r h' :
  m h = Ok r h' → bind m f h = f r h'.
Proof. unfold bind. by intros ->. Qed.

Lemma bind_Raise {R R'} (m : M (list A) R) (f : R → M (list A) R') h e h' :
  m h = Raise e h' → bind m f h = Raise e h'.
Proof. unfold bind. by intros ->. Qed.

Lemma getitem_Some h i x : h !! i = Some x → getitem i h = Ok x h.
Proof. unfold getitem. by intros ->. Qed.

Lemma getitem_None h i : length h ≤ i → getitem i h = Raise IndexError h.
Proof. intros Hi. unfold getitem. by rewrite (proj2 (lookup_ge_None h i) Hi). Qed.

Lemma setitem_lt h i x : i < length h → setitem i x h = Ok tt (<[i:=x]> h).
Proof. intros Hi. unfold setitem. by rewrite decide_True. Qed.

Lemma pop_snoc h x : pop (h ++ [x]) = Ok x h.
Proof.
  unfold pop. rewrite last_snoc, length_app. simpl.
  by rewrite take_app_length' by lia.
Qed.

Lemma lookup_lt_Some_ex h i : i < length h → ∃ x, h !! i = Some x.
Proof. intros Hi. by apply lookup_lt_is_Some in Hi as [x ?]; eauto. Qed.

Lemma snoc_cases h : h = [] ∨ ∃ h' x, h = h' ++ [x].
Proof.
  destruct h as [|a t] using rev_ind; [by left|right; eauto].
Qed.

(** Moving the entry of [j] to [i] and writing [x] at [j] is, up to the
    order of the elements, writing [x] at [i]. *)
Lemma insert_head_perm h j x y :
  h !! j = Some y → y :: <[j:=x]> h ≡ₚ x :: h.
Proof.
  revert j. induction h as [|a t IH]; intros [|j] Hj; simplify_eq/=.
  - apply perm_swap.
  - rewrite (perm_swap a y), (perm_swap a x). by rewrite (IH j).
Qed.

Lemma insert_move_perm h i j x y :
  i ≠ j → i < length h → h !! j = Some y →
  <[j:=x]> (<[i:=y]> h) ≡ₚ <[i:=x]> h.
Proof.
  revert i j. induction h as [|a t IH]; intros [|i] [|j] Hne Hi Hj;
    simplify_eq/=; try lia.
  - by apply insert_head_perm.
  - destruct (lookup_lt_Some_ex t i) as [z Hz]; [lia|].
    apply (Permutation_cons_inv (a:=z)).
    rewrite (perm_swap x z), (perm_swap y z).
    rewrite (insert_head_perm t i y z Hz), (insert_head_perm t i x z Hz).
    apply perm_swap.
  - f_equiv. apply IH; [congruence|lia|done].
Qed.
End PrimFacts.

(** ** The sift routines return, inside the list, for every list *)

Section SiftRuns.
Context {A : Type} `{Ordered A}.
Implicit Types (h : list A) (x : A).

Lemma pick_child_range h c :
  c < length h → c ≤ pick_child h c ≤ c + 1 ∧ pick_child h c < length h.
Proof.
  intros Hc. unfold pick_child.
  destruct (h !! c) as [l|]; [|lia].
  destruct (h !! (c + 1)) as [r|] eqn:Hr; [|lia].
  apply lookup_lt_Some in Hr. destruct (ltb l r); lia.
Qed.

Lemma siftdown_loop_exit fuel cur pos child h :
  length h ≤ child → siftdown_loop (S fuel) cur pos child h = Ok pos h.
Proof.
  intros Hc. simpl. unfold bind, len.
  by rewrite (proj2 (Nat.ltb_ge child (length h)) Hc).
Qed.

Lemma siftdown_loop_step fuel cur pos child h c :
  pos < length h → child < length h → h !! pick_child h child = Some c →
  siftdown_loop (S fuel) cur pos child h =
    if ltb cur c
    then siftdown_loop fuel cur (pick_child h child)
           (2 * pick_child h child + 1) (<[pos:=c]> h)
    else Ok pos h.
Proof.
  intros Hpos Hc Hpick. simpl. unfold bind at 1. unfold len at 1.
  rewrite (proj2 (Nat.ltb_lt child (length h)) Hc).
  unfold bind at 1. unfold len at 1.
  destruct (lookup_lt_Some_ex h child Hc) as [l Hl].
  unfold pick_child in Hpick |- *. rewrite Hl in Hpick |- *.
  destruct (Nat.ltb_spec (child + 1) (length h)) as [Hr|Hr].
  - destruct (lookup_lt_Some_ex h (child + 1) Hr) as [r Hrv].
    rewrite Hrv in Hpick |- *.
    unfold bind at 1.
    unfold bind at 1. rewrite (getitem_Some _ _ _ Hl).
    unfold bind at 1. rewrite (getitem_Some _ _ _ Hrv). unfold ret at 1.
    destruct (ltb l r);
      unfold bind at 1; rewrite (getitem_Some _ _ _ Hpick);
      (destruct (ltb cur c); [|done]);
      unfold bind at 1; rewrite (getitem_Some _ _ _ Hpick);
      unfold bind at 1; by rewrite setitem_lt.
  - rewrite (proj2 (lookup_ge_None h (child + 1)) Hr) in Hpick |- *.
    unfold bind at 1. unfold ret at 1.
    unfold bind at 1; rewrite (getitem_Some _ _ _ Hpick).
    destruct (ltb cur c); [|done].
    unfold bind at 1; rewrite (getitem_Some _ _ _ Hpick).
    unfold bind at 1; by rewrite setitem_lt.
Qed.

Lemma siftdown_loop_runs fuel cur pos child h :
  pos < length h → pos < child → length h ≤ fuel + pos →
  ∃ pos' h', siftdown_loop fuel cur pos child h = Ok pos' h'
             ∧ pos' < length h' ∧ length h' = length h
             ∧ <[pos':=cur]> h' ≡ₚ <[pos:=cur]> h.
Proof.
  revert pos child h. induction fuel as [|fuel IH]; intros pos child h Hp Hc Hf;
    [lia|].
  destruct (Nat.le_gt_cases (length h) child) as [Hout|Hin].
  - rewrite siftdown_loop_exit by done. eauto 10.
  - destruct (pick_child_range h child Hin) as [Hr1 Hr2].
    destruct (lookup_lt_Some_ex h _ Hr2) as [c Hcv].
    rewrite (siftdown_loop_step _ _ _ _ _ c) by done.
    destruct (ltb cur c); [|eauto 10].
    destruct (IH (pick_child h child) (2 * pick_child h child + 1)
                (<[pos:=c]> h)) as (pos' & h' & Hrun & Hlt & Hlen & Hperm).
    { rewrite length_insert. lia. }
    { lia. }
    { rewrite length_insert. lia. }
    exists pos', h'. rewrite length_insert in Hlen.
    split_and!; [done..|].
    rewrite Hperm. apply insert_move_perm; [lia|done..].
Qed.

Lemma _siftdown_runs pos h :
  pos < length h →
  ∃ h', _siftdown pos h = Ok tt h' ∧ length h' = length h ∧ h' ≡ₚ h.
Proof.
  intros Hp. destruct (lookup_lt_Some_ex h pos Hp) as [cur Hcur].
  unfold _siftdown. rewrite (bind_Ok _ _ _ _ _ (getitem_Some _ _ _ Hcur)).
  unfold bind at 1. unfold len at 1.
  destruct (siftdown_loop_runs (length h) cur pos (2 * pos + 1) h)
    as (pos' & h' & Hrun & Hlt & Hlen & Hperm); [lia..|].
  rewrite (bind_Ok _ _ _ _ _ Hrun), setitem_lt by done.
  eexists; split_and!; [done|by rewrite length_insert|].
  by rewrite Hperm, list_insert_id.
Qed.

Lemma _siftdown_outside pos h :
  length h ≤ pos → _siftdown pos h = Raise IndexError h.
Proof.
  intros Hp. unfold _siftdown. by rewrite (bind_Raise _ _ _ _ _ (getitem_None _ _ Hp)).
Qed.

(** [_siftup] *)

Lemma siftup_loop_root fuel cur h :
  siftup_loop (S fuel) cur 0 h = Ok 0 h.
Proof. done. Qed.

Lemma siftup_loop_step fuel cur pos h p :
  0 < pos → pos < length h → h !! ((pos - 1) / 2) = Some p →
  siftup_loop (S fuel) cur pos h =
    if ltb p cur
    then siftup_loop fuel cur ((pos - 1) / 2) (<[pos:=p]> h)
    else Ok pos h.
Proof.
  intros H0 Hp Hpar. cbn [siftup_loop].
  rewrite (proj2 (Nat.ltb_lt 0 pos) H0), Nat.shiftr_div_pow2.
  change (2 ^ 1) with 2.
  rewrite (bind_Ok _ _ _ _ _ (getitem_Some _ _ _ Hpar)).
  unfold gtb. destruct (ltb p cur); [|done].
  rewrite (bind_Ok _ _ _ _ _ (getitem_Some _ _ _ Hpar)).
  by rewrite (bind_Ok _ _ _ _ _ (setitem_lt _ _ _ Hp)).
Qed.

Lemma siftup_loop_runs fuel cur pos h :
  pos < length h → pos < fuel →
  ∃ pos' h', siftup_loop fuel cur pos h = Ok pos' h'
             ∧ pos' < length h' ∧ length h' = length h
             ∧ <[pos':=cur]> h' ≡ₚ <[pos:=cur]> h.
Proof.
  revert pos h. induction fuel as [|fuel IH]; intros pos h Hp Hf; [lia|].
  destruct pos as [|pos]; [rewrite siftup_loop_root; eauto 10|].
  assert (Hpar : (S pos - 1) / 2 < S pos).
  { apply Nat.Div0.div_lt_upper_bound. lia. }
  destruct (lookup_lt_Some_ex h ((S pos - 1) / 2)) as [p Hpv]; [lia|].
  rewrite (siftup_loop_step _ _ _ _ p) by (done || lia).
  destruct (ltb p cur); [|eauto 10].
  destruct (IH ((S pos - 1) / 2) (<[S pos:=p]> h))
    as (pos' & h' & Hrun & Hlt & Hlen & Hperm).
  { rewrite length_insert. lia. }
  { lia. }
  exists pos', h'. rewrite length_insert in Hlen.
  split_and!; [done..|].
  rewrite Hperm. apply insert_move_perm; [lia|done..].
Qed.

Lemma _siftup_runs pos h :
  pos < length h →
  ∃ h', _siftup pos h = Ok tt h' ∧ length h' = length h ∧ h' ≡ₚ h.
Proof.
  intros Hp. destruct (lookup_lt_Some_ex h pos Hp) as [cur Hcur].
  unfold _siftup. rewrite (bind_Ok _ _ _ _ _ (getitem_Some _ _ _ Hcur)).
  unfold bind at 1. unfold len at 1.
  destruct (siftup_loop_runs (length h) cur pos h)
    as (pos' & h' & Hrun & Hlt & Hlen & Hperm); [lia..|].
  rewrite (bind_Ok _ _ _ _ _ Hrun), setitem_lt by done.
  eexists; split_and!; [done|by rewrite length_insert|].
  by rewrite Hperm, list_insert_id.
Qed.

Lemma heappush_runs item h :
  ∃ h', heappush item h = Ok tt h' ∧ length h' = S (length h)
        ∧ h' ≡ₚ item :: h.
Proof.
  unfold heappush, append, len, bind. rewrite length_app. simpl.
  destruct (_siftup_runs (length h + 1 - 1) (h ++ [item]))
    as (h' & Hrun & Hlen & Hperm).
  { rewrite length_app. simpl. lia. }
  exists h'. rewrite length_app in Hlen. simpl in Hlen.
  split_and!; [done|lia|].
  rewrite Hperm. by rewrite Permutation_app_comm.
Qed.
End SiftRuns.

(** ** The max-heap invariant *)

Section HeapInvariant.
Context {A : Type} `{Ordered A}.
Implicit Types (h : list A) (x : A).

Lemma is_max_heap_from h : is_max_heap h ↔ heap_from 0 h.
Proof.
  split.
  - intros Hh i c x y _ [->| ->] Hx Hy; by destruct (Hh i x Hx) as [H1 H2]; eauto.
  - intros Hh i x Hx. split; intros y Hy;
      (eapply (Hh i); [lia| |done..]); [by left|by right].
Qed.

Lemma is_max_heapb_spec h : is_max_heapb h = true ↔ is_max_heap h.
Proof.
  unfold is_max_heapb. rewrite forallb_forall. split.
  - intros Hb i x Hx.
    assert (Hi : In i (seq 0 (length h))).
    { apply in_seq. apply lookup_lt_Some in Hx. lia. }
    specialize (Hb i Hi). unfold heap_okb in Hb. rewrite Hx in Hb.
    apply andb_true_iff in Hb as [H1 H2].
    split; intros y Hy; [rewrite Hy in H1|rewrite Hy in H2];
      unfold geb in *; unfold ge; by destruct (ltb x y).
  - intros Hh i _. unfold heap_okb.
    destruct (h !! i) as [x|] eqn:Hx; [|done].
    destruct (Hh i x Hx) as [H1 H2]. apply andb_true_iff. split.
    + destruct (h !! (2 * i + 1)) as [y|]; [|done].
      unfold geb. by rewrite (H1 y eq_refl).
    + destruct (h !! (2 * i + 2)) as [y|]; [|done].
      unfold geb. by rewrite (H2 y eq_refl).
Qed.

Lemma heap_from_mono k k' h : k ≤ k' → heap_from k h → heap_from k' h.
Proof. intros Hk Hh i c x y Hi. apply Hh. lia. Qed.

(** Parents from the middle of the list on have no child in range. *)
Lemma heap_from_half h : heap_from (length h / 2) h.
Proof.
  intros i c x y Hi Hc Hx Hy. apply lookup_lt_Some in Hy.
  assert (length h < 2 * (length h / 2) + 2).
  { pose proof (Nat.div_mod_eq (length h) 2).
    pose proof (Nat.mod_upper_bound (length h) 2). lia. }
  destruct Hc; lia.
Qed.

Lemma is_max_heap_nil : is_max_heap ([] : list A).
Proof. intros i x Hx. by rewrite lookup_nil in Hx. Qed.

Lemma heap_from_app_l k h t : heap_from k (h ++ t) → heap_from k h.
Proof.
  intros Hh i c x y Hi Hc Hx Hy.
  eapply (Hh i c); [done|done|by apply lookup_app_l_Some..].
Qed.
End HeapInvariant.

(** ** [_siftdown] and [_siftup] restore the invariant *)

Section SiftOrder.
Context {A : Type} `{WeakOrder A}.
Implicit Types (h : list A) (x : A).

Ltac ins_lookup :=
  repeat match goal with
    | H : <[?i:=_]> _ !! ?i = Some _ |- _ =>
        rewrite list_lookup_insert_eq in H by (rewrite ?length_insert; lia)
    | H : <[?i:=_]> _ !! ?j = Some _ |- _ =>
        rewrite list_lookup_insert_ne in H by lia
    end; simplify_eq.

Lemma pick_child_max h c m c' y :
  h !! pick_child h c = Some m → c' = c ∨ c' = c + 1 → h !! c' = Some y →
  ge m y.
Proof.
  unfold pick_child. intros Hm Hc Hy.
  destruct (h !! c) as [l|] eqn:Hl.
  - destruct (h !! (c + 1)) as [r|] eqn:Hr.
    + destruct (ltb l r) eqn:E; destruct Hc; simplify_eq;
        auto using ge_refl, ltb_ge.
    + destruct Hc; simplify_eq. apply ge_refl.
  - destruct Hc; simplify_eq.
Qed.

(** The loop keeps a hole at [pos]: what is stored there is a copy of
    what was moved up, and is not below [cur_item]. *)
Lemma siftdown_loop_heap fuel cur start pos h pos' h' :
  siftdown_loop fuel cur pos (2 * pos + 1) h = Ok pos' h' →
  start ≤ pos → pos < length h →
  (∀ i c x y, start ≤ i → i ≠ pos → child_of c i →
              h !! i = Some x → h !! c = Some y → ge x y) →
  (pos ≠ start → ∀ c x y, child_of c pos →
              h !! pos = Some x → h !! c = Some y → ge x y) →
  (∀ x, h !! pos = Some x → ge x cur) →
  heap_from start (<[pos':=cur]> h').
Proof.
  revert pos h. induction fuel as [|fuel IH];
    intros pos h Hrun Hs Hp Inv1 Inv2 Inv3; [done|].
  assert (Hfinal : ∀ i c x y, start ≤ i → i ≠ pos → child_of c i →
            <[pos:=cur]> h !! i = Some x → <[pos:=cur]> h !! c = Some y → ge x y).
  { intros i c x y Hi Hne Hc Hx Hy.
    destruct (decide (c = pos)) as [Hcp|Hcp]; [subst c|]; ins_lookup.
    - destruct (lookup_lt_Some_ex h pos Hp) as [z Hz].
      eapply ge_trans; [by eapply (Inv1 i pos)|by apply Inv3].
    - by eapply (Inv1 i c). }
  destruct (Nat.le_gt_cases (length h) (2 * pos + 1)) as [Hout|Hin].
  { rewrite siftdown_loop_exit in Hrun by done. injection Hrun as <- <-.
    intros i c x y Hi Hc Hx Hy.
    destruct (decide (i = pos)) as [Hne|Hne]; [subst i|by eapply Hfinal].
    apply lookup_lt_Some in Hy. rewrite length_insert in Hy.
    destruct Hc; lia. }
  destruct (pick_child_range h _ Hin) as [Hr1 Hr2].
  destruct (lookup_lt_Some_ex h _ Hr2) as [m Hm].
  rewrite (siftdown_loop_step _ _ _ _ _ m) in Hrun by done.
  assert (Hmax : ∀ c y, child_of c pos → h !! c = Some y → ge m y).
  { intros c y Hc Hy. eapply pick_child_max; [done| |done].
    destruct Hc; lia. }
  destruct (ltb cur m) eqn:Hcm.
  - eapply IH; [exact Hrun|lia|by rewrite length_insert|..].
    + intros i c x y Hi Hne Hc Hx Hy.
      destruct (decide (i = pos)) as [Hip|Hip]; [subst i|].
      * assert (c ≠ pos) by (destruct Hc; lia). ins_lookup. by eapply Hmax.
      * destruct (decide (c = pos)) as [Hcp|Hcp]; [subst c|]; ins_lookup.
        -- destruct (lookup_lt_Some_ex h pos Hp) as [z Hz].
           eapply ge_trans; [by eapply (Inv1 i pos)|].
           eapply (Inv2 ltac:(destruct Hc; lia) (pick_child h (2 * pos + 1)));
             [|done..].
           unfold child_of. lia.
        -- by eapply (Inv1 i c).
    + intros _ c x y Hc Hx Hy.
      assert (c ≠ pos) by (destruct Hc; lia). ins_lookup.
      eapply (Inv1 (pick_child h (2 * pos + 1)) c); [lia|lia|done..].
    + intros x Hx. ins_lookup. by apply ltb_ge.
  - injection Hrun as <- <-. intros i c x y Hi Hc Hx Hy.
    destruct (decide (i = pos)) as [Hne|Hne]; [subst i|by eapply Hfinal].
    assert (c ≠ pos) by (destruct Hc; lia). ins_lookup.
    eapply ge_trans; [exact Hcm|by eapply Hmax].
Qed.

Lemma _siftdown_heap pos h h' :
  _siftdown pos h = Ok tt h' → heap_from (S pos) h → heap_from pos h'.
Proof.
  intros Hrun Hh.
  destruct (Nat.le_gt_cases (length h) pos) as [Hout|Hp].
  { by rewrite _siftdown_outside in Hrun. }
  destruct (lookup_lt_Some_ex h pos Hp) as [cur Hcur].
  unfold _siftdown in Hrun.
  rewrite (bind_Ok _ _ _ _ _ (getitem_Some _ _ _ Hcur)) in Hrun.
  unfold bind at 1 in Hrun. unfold len at 1 in Hrun.
  destruct (siftdown_loop_runs (length h) cur pos (2 * pos + 1) h)
    as (pos' & h1 & Hloop & Hlt & _ & _); [lia..|].
  rewrite (bind_Ok _ _ _ _ _ Hloop), setitem_lt in Hrun by done.
  simplify_eq.
  eapply siftdown_loop_heap; [exact Hloop|done|done|..].
  - intros i c x y Hi Hne. apply Hh. lia.
  - done.
  - intros x Hx. simplify_eq. apply ge_refl.
Qed.

Lemma parent_child pos : 0 < pos → child_of pos ((pos - 1) / 2).
Proof.
  intros Hp. unfold child_of.
  pose proof (Nat.div_mod_eq (pos - 1) 2).
  pose proof (Nat.mod_upper_bound (pos - 1) 2). lia.
Qed.

(** Going up, the hole at [pos] holds a copy of what was moved down,
    which is not above [cur_item]; the parent of the hole is not below
    the children of the hole. *)
Lemma siftup_loop_heap fuel cur pos h pos' h' :
  siftup_loop fuel cur pos h = Ok pos' h' →
  pos < length h →
  (∀ i c x y, child_of c i → c ≠ pos →
              h !! i = Some x → h !! c = Some y → ge x y) →
  (∀ x, h !! pos = Some x → ge cur x) →
  (∀ g c x y, child_of pos g → child_of c pos →
              h !! g = Some x → h !! c = Some y → ge x y) →
  heap_from 0 (<[pos':=cur]> h').
Proof.
  revert pos h. induction fuel as [|fuel IH];
    intros pos h Hrun Hp U1 U2 U3; [done|].
  destruct (lookup_lt_Some_ex h pos Hp) as [z Hz].
  assert (Hlow : ∀ i c x y, child_of c i → c ≠ pos →
            <[pos:=cur]> h !! i = Some x → <[pos:=cur]> h !! c = Some y → ge x y).
  { intros i c x y Hc Hne Hx Hy.
    destruct (decide (i = pos)) as [Hi|Hi]; [subst i|]; ins_lookup.
    - eapply ge_trans; [by apply U2|by eapply (U1 pos c)].
    - by eapply (U1 i c). }
  destruct (decide (pos = 0)) as [->|Hpos].
  { rewrite siftup_loop_root in Hrun. injection Hrun as <- <-.
    intros i c x y _ Hc Hx Hy. eapply Hlow; [done| |done..].
    destruct Hc; lia. }
  pose proof (parent_child pos ltac:(lia)) as Hq.
  set (q := (pos - 1) / 2) in *.
  assert (Hqp : q < pos) by (destruct Hq; lia).
  destruct (lookup_lt_Some_ex h q) as [p Hpv]; [lia|].
  rewrite (siftup_loop_step _ _ _ _ p) in Hrun by (done || lia).
  fold q in Hrun.
  destruct (ltb p cur) eqn:Hpc.
  - eapply IH; [exact Hrun|rewrite length_insert; lia|..].
    + intros i c x y Hc Hne Hx Hy.
      destruct (decide (c = pos)) as [Hcp|Hcp]; [subst c|].
      * assert (i = q) by (destruct Hc, Hq; lia). subst i. ins_lookup.
        apply ge_refl.
      * destruct (decide (i = pos)) as [Hi|Hi]; [subst i|]; ins_lookup.
        -- by eapply (U3 q c).
        -- by eapply (U1 i c).
    + intros x Hx. ins_lookup. by apply ltb_ge.
    + intros g c x y Hg Hc Hx Hy.
      assert (g ≠ pos) by (destruct Hg; lia).
      destruct (decide (c = pos)) as [Hcp|Hcp]; [subst c|]; ins_lookup.
      * eapply (U1 g q); [done|lia|done..].
      * eapply ge_trans; [eapply (U1 g q); [done|lia|done..]|].
        eapply (U1 q c); [done|lia|done..].
  - injection Hrun as <- <-. intros i c x y _ Hc Hx Hy.
    destruct (decide (c = pos)) as [Hcp|Hcp]; [subst c|by eapply Hlow].
    assert (i = q) by (destruct Hc, Hq; lia). subst i. by ins_lookup.
Qed.

Lemma heappush_heap item h h' :
  heappush item h = Ok tt h' → is_max_heap h → is_max_heap h'.
Proof.
  intros Hrun Hh. apply is_max_heap_from in Hh. apply is_max_heap_from.
  unfold heappush, append, len, bind in Hrun.
  rewrite length_app in Hrun. simpl in Hrun.
  replace (length h + 1 - 1) with (length h) in Hrun by lia.
  unfold _siftup in Hrun.
  rewrite (bind_Ok _ _ _ _ _
             (getitem_Some _ _ item (list_lookup_middle h [] item _ eq_refl)))
    in Hrun.
  unfold bind at 1 in Hrun. unfold len at 1 in Hrun.
  destruct (siftup_loop_runs (length (h ++ [item])) item (length h) (h ++ [item]))
    as (pos' & h1 & Hloop & Hlt & _ & _).
  { rewrite length_app. simpl. lia. }
  { rewrite length_app. simpl. lia. }
  rewrite (bind_Ok _ _ _ _ _ Hloop), setitem_lt in Hrun by done.
  injection Hrun as <-.
  eapply siftup_loop_heap; [exact Hloop|rewrite length_app; simpl; lia|..].
  - intros i c x y Hc Hne Hx Hy.
    assert (c < length h).
    { apply lookup_lt_Some in Hy. rewrite length_app in Hy. simpl in Hy. lia. }
    rewrite lookup_app_l in Hx by (destruct Hc; lia).
    rewrite lookup_app_l in Hy by done.
    eapply (Hh i c); [lia|done..].
  - intros x Hx. rewrite list_lookup_middle in Hx by done. simplify_eq.
    apply ge_refl.
  - intros g c x y _ Hc _ Hy. apply lookup_lt_Some in Hy.
    rewrite length_app in Hy. simpl in Hy. destruct Hc; lia.
Qed.
End SiftOrder.

(** ** The heap operations, on every list *)

Section HeapRuns.
Context {A : Type} `{Ordered A}.
Implicit Types (h t : list A) (x : A).

Lemma heapify_loop_runs k h :
  k ≤ length h →
  ∃ h', heapify_loop k h = Ok tt h' ∧ length h' = length h ∧ h' ≡ₚ h.
Proof.
  revert h. induction k as [|k IH]; intros h Hk; [by exists h|].
  destruct (_siftdown_runs k h) as (h1 & Hrun & Hlen & Hperm); [lia|].
  destruct (IH h1) as (h2 & Hrun2 & Hlen2 & Hperm2); [lia|].
  exists h2. cbn [heapify_loop]. rewrite (bind_Ok _ _ _ _ _ Hrun).
  split_and!; [done|congruence|by rewrite Hperm2].
Qed.

Lemma heapify_runs h :
  ∃ h', heapify h = Ok tt h' ∧ length h' = length h ∧ h' ≡ₚ h.
Proof.
  unfold heapify, bind, len. apply heapify_loop_runs.
  apply Nat.Div0.div_le_upper_bound. lia.
Qed.

Lemma heappop_nil : heappop ([] : list A) = Raise IndexError [].
Proof. done. Qed.

Lemma heappop_runs x t :
  ∃ h', heappop (x :: t) = Ok x h' ∧ h' ≡ₚ t ∧ length h' = length t.
Proof.
  unfold heappop. destruct (snoc_cases t) as [->|(t' & l & ->)].
  - by exists [].
  - rewrite app_comm_cons, (bind_Ok _ _ _ _ _ (pop_snoc _ _)).
    unfold bind at 1. unfold len at 1. cbn [length Nat.ltb Nat.leb].
    rewrite (bind_Ok _ _ _ _ _ (getitem_Some (x :: t') 0 x eq_refl)).
    rewrite (bind_Ok _ _ _ _ _ (setitem_lt (x :: t') 0 l ltac:(simpl; lia))).
    cbn [insert list_insert].
    destruct (_siftdown_runs 0 (l :: t')) as (h' & Hrun & Hlen & Hperm);
      [simpl; lia|].
    rewrite (bind_Ok _ _ _ _ _ Hrun). exists h'. split_and!; [done| |].
    + rewrite Hperm. by rewrite Permutation_app_comm.
    + rewrite Hlen, length_app. simpl. lia.
Qed.

Lemma heapreplace_nil item : heapreplace item ([] : list A) = Raise IndexError [].
Proof. done. Qed.

Lemma heapreplace_runs item x t :
  ∃ h', heapreplace item (x :: t) = Ok x h' ∧ h' ≡ₚ item :: t
        ∧ length h' = S (length t).
Proof.
  unfold heapreplace.
  rewrite (bind_Ok _ _ _ _ _ (getitem_Some (x :: t) 0 x eq_refl)).
  rewrite (bind_Ok _ _ _ _ _ (setitem_lt (x :: t) 0 item ltac:(simpl; lia))).
  cbn [insert list_insert].
  destruct (_siftdown_runs 0 (item :: t)) as (h' & Hrun & Hlen & Hperm);
    [simpl; lia|].
  rewrite (bind_Ok _ _ _ _ _ Hrun). by exists h'.
Qed.

Lemma pop_rounds_sub k h out h' y :
  pop_rounds k h = Ok out h' → y ∈ out → y ∈ h.
Proof.
  revert h out h'. induction k as [|k IH]; intros h out h' Hrun Hy.
  - injection Hrun as <- _. by apply elem_of_nil in Hy.
  - cbn [pop_rounds] in Hrun. destruct h as [|x t]; [done|].
    destruct (heappop_runs x t) as (h1 & Hpop & Hperm & Hlen).
    rewrite (bind_Ok _ _ _ _ _ Hpop) in Hrun. unfold bind in Hrun.
    destruct (pop_rounds k h1) as [out1 h2| |] eqn:Hrest; [|done..].
    injection Hrun as <- _.
    apply elem_of_cons in Hy as [->|Hy]; [by left|].
    right. rewrite <- Hperm. by eapply IH.
Qed.

Lemma pop_rounds_runs k h :
  k = length h →
  ∃ out, pop_rounds k h = Ok out [] ∧ out ≡ₚ h.
Proof.
  revert h. induction k as [|k IH]; intros h Hk.
  - destruct h; [by exists []|done].
  - destruct h as [|x t]; [done|].
    destruct (heappop_runs x t) as (h' & Hrun & Hperm & Hlen).
    destruct (IH h') as (out & Hout & Hp); [simpl in Hk; lia|].
    exists (x :: out). cbn [pop_rounds].
    rewrite (bind_Ok _ _ _ _ _ Hrun), (bind_Ok _ _ _ _ _ Hout).
    split; [done|]. by rewrite Hp, Hperm.
Qed.
End HeapRuns.

(** ** The heap operations keep the invariant *)

Section HeapOrder.
Context {A : Type} `{WeakOrder A}.
Implicit Types (h t : list A) (x : A).

Lemma heapify_loop_heap k h h' :
  heapify_loop k h = Ok tt h' → heap_from k h → heap_from 0 h'.
Proof.
  revert h. induction k as [|k IH]; intros h Hrun Hh.
  - by injection Hrun as <-.
  - cbn [heapify_loop] in Hrun. unfold bind in Hrun.
    destruct (_siftdown k h) as [[] h1| |] eqn:Hs; [|done..].
    eapply IH; [exact Hrun|]. by eapply _siftdown_heap.
Qed.

Lemma heapify_heap h h' : heapify h = Ok tt h' → is_max_heap h'.
Proof.
  unfold heapify, bind, len. intros Hrun. apply is_max_heap_from.
  eapply heapify_loop_heap; [exact Hrun|apply heap_from_half].
Qed.

Lemma heap_from_insert_root h v : heap_from 1 h → heap_from 1 (<[0:=v]> h).
Proof.
  intros Hh i c x y Hi Hc Hx Hy.
  rewrite list_lookup_insert_ne in Hx by lia.
  rewrite list_lookup_insert_ne in Hy by (destruct Hc; lia).
  by eapply Hh.
Qed.

Lemma heapreplace_heap item h x h' :
  heapreplace item h = Ok x h' → heap_from 1 h → is_max_heap h'.
Proof.
  intros Hrun Hh. apply is_max_heap_from.
  destruct h as [|r t]; [done|].
  unfold heapreplace in Hrun.
  rewrite (bind_Ok _ _ _ _ _ (getitem_Some (r :: t) 0 r eq_refl)) in Hrun.
  rewrite (bind_Ok _ _ _ _ _ (setitem_lt (r :: t) 0 item ltac:(simpl; lia))) in Hrun.
  unfold bind in Hrun.
  destruct (_siftdown 0 _) as [[] h1| |] eqn:Hs; [|done..].
  injection Hrun as _ <-.
  eapply _siftdown_heap; [exact Hs|]. by apply heap_from_insert_root.
Qed.

Lemma heappop_heap h x h' :
  heappop h = Ok x h' → is_max_heap h → is_max_heap h'.
Proof.
  intros Hrun Hh. apply is_max_heap_from in Hh.
  destruct (snoc_cases h) as [->|(t & l & ->)]; [done|].
  unfold heappop in Hrun. rewrite (bind_Ok _ _ _ _ _ (pop_snoc _ _)) in Hrun.
  unfold bind at 1 in Hrun. unfold len at 1 in Hrun.
  destruct t as [|r t].
  { injection Hrun as _ <-. apply is_max_heap_nil. }
  cbn [length Nat.ltb Nat.leb] in Hrun.
  rewrite (bind_Ok _ _ _ _ _ (getitem_Some (r :: t) 0 r eq_refl)) in Hrun.
  rewrite (bind_Ok _ _ _ _ _ (setitem_lt (r :: t) 0 l ltac:(simpl; lia))) in Hrun.
  unfold bind in Hrun.
  destruct (_siftdown 0 _) as [[] h1| |] eqn:Hs; [|done..].
  injection Hrun as _ <-. apply is_max_heap_from.
  eapply _siftdown_heap; [exact Hs|]. apply heap_from_insert_root.
  eapply heap_from_mono; [|by eapply heap_from_app_l]. lia.
Qed.

(** The root of a heap is not below any of its elements. *)
Lemma heap_root_max h r :
  is_max_heap h → h !! 0 = Some r → ∀ i x, h !! i = Some x → ge r x.
Proof.
  intros Hh Hr i. apply is_max_heap_from in Hh.
  induction i as [i IH] using lt_wf_ind. intros x Hx.
  destruct (decide (i = 0)) as [->|Hi]; [simplify_eq; apply ge_refl|].
  pose proof (parent_child i ltac:(lia)) as Hq.
  set (q := (i - 1) / 2) in *.
  assert (q < i) by (destruct Hq; lia).
  destruct (lookup_lt_Some_ex h q) as [p Hp].
  { apply lookup_lt_Some in Hx. lia. }
  eapply ge_trans; [by apply (IH q)|].
  eapply (Hh q i); [lia|done..].
Qed.

Lemma heap_root_max_elem r t x :
  is_max_heap (r :: t) → x ∈ r :: t → ge r x.
Proof.
  intros Hh Hx. apply list_elem_of_lookup in Hx as [i Hi].
  by eapply (heap_root_max (r :: t) r Hh).
Qed.

#[local] Instance ge_transitive : Transitive (ge (A:=A)).
Proof. intros a b c. apply ge_trans. Qed.

Lemma pop_rounds_sorted k h out h' :
  pop_rounds k h = Ok out h' → is_max_heap h → StronglySorted ge out.
Proof.
  revert h out h'. induction k as [|k IH]; intros h out h' Hrun Hh.
  - injection Hrun as <- _. constructor.
  - cbn [pop_rounds] in Hrun. destruct h as [|x t]; [done|].
    destruct (heappop_runs x t) as (h1 & Hpop & Hperm & Hlen).
    rewrite (bind_Ok _ _ _ _ _ Hpop) in Hrun. unfold bind in Hrun.
    destruct (pop_rounds k h1) as [out1 h2| |] eqn:Hrest; [|done..].
    injection Hrun as <- _. constructor.
    + eapply IH; [exact Hrest|]. by eapply heappop_heap.
    + apply Forall_forall. intros y Hy.
      eapply (heap_root_max_elem x t); [done|].
      apply elem_of_cons. right. rewrite <- Hperm.
      eapply pop_rounds_sub; [exact Hrest|done].
Qed.
End HeapOrder.

Section PushPopTies.
Context {A : Type} `{WeakOrder A}.
Implicit Types (h t : list A) (x : A).

(** What [heappushpop] returns from a heap is not below the item nor
    below any element of the heap. *)
Lemma heappushpop_max item h :
  is_max_heap h →
  ∃ v h1, heappushpop item h = Ok v h1
          ∧ is_max_heap h1 ∧ v :: h1 ≡ₚ item :: h
          ∧ (∀ y, y ∈ item :: h → ge v y)
          ∧ (h = [] → v = item ∧ h1 = []).
Proof.
  intros Hh. destruct h as [|r t].
  { exists item, []. split_and!; [done|done|done| |done].
    intros y ->%list_elem_of_singleton. apply ge_refl. }
  assert (Hr : ∀ x, x ∈ r :: t → ge r x)
    by (intros x; by apply heap_root_max_elem).
  unfold heappushpop. unfold bind at 1. unfold len at 1.
  cbn [length Nat.ltb Nat.leb]. unfold bind at 1.
  rewrite (bind_Ok _ _ _ _ _ (getitem_Some (r :: t) 0 r eq_refl)).
  unfold ret at 1. unfold gtb. destruct (ltb item r) eqn:Hir.
  - rewrite (bind_Ok _ _ _ _ _ (getitem_Some (r :: t) 0 r eq_refl)).
    rewrite (bind_Ok _ _ _ _ _ (setitem_lt (r :: t) 0 item ltac:(simpl; lia))).
    cbn [insert list_insert].
    destruct (_siftdown_runs 0 (item :: t)) as (h1 & Hs & _ & Hp1);
      [simpl; lia|].
    rewrite (bind_Ok _ _ _ _ _ Hs). exists r, h1.
    split_and!; [done| |by rewrite Hp1, perm_swap| |done].
    + apply is_max_heap_from. eapply _siftdown_heap; [exact Hs|].
      apply (heap_from_insert_root (r :: t) item).
      eapply heap_from_mono; [|by apply is_max_heap_from]. lia.
    + intros y [->|Hy]%elem_of_cons; [by apply ltb_ge|by apply Hr].
  - exists item, (r :: t). split_and!; [done|done|done| |done].
    intros y [->|Hy]%elem_of_cons; [apply ge_refl|].
    eapply ge_trans; [exact Hir|by apply Hr].
Qed.

(** So is what [heappush] followed by [heappop] returns. *)
Lemma push_pop_max item h :
  is_max_heap h →
  ∃ v h2, (heappush item ;;; heappop) h = Ok v h2
          ∧ is_max_heap h2 ∧ v :: h2 ≡ₚ item :: h
          ∧ (∀ y, y ∈ item :: h → ge v y).
Proof.
  intros Hh.
  destruct (heappush_runs item h) as (hp & Hpush & Hlen & Hperm).
  pose proof (heappush_heap _ _ _ Hpush Hh) as Hhp.
  destruct hp as [|r t]; [done|].
  destruct (heappop_runs r t) as (h2 & Hpop & Hperm2 & _).
  exists r, h2. rewrite (bind_Ok _ _ _ _ _ Hpush).
  split_and!; [done|by eapply heappop_heap|by rewrite Hperm2| ].
  intros y Hy. apply (heap_root_max_elem r t); [done|]. by rewrite Hperm.
Qed.
End PushPopTies.

Lemma by_priority_weak : @WeakOrder (Z * Z) by_priority.
Proof.
  split; unfold ltb, by_priority; intros;
    repeat match goal with
      | H : context [Z.ltb ?a ?b] |- _ => destruct (Z.ltb_spec a b)
      | |- context [Z.ltb ?a ?b] => destruct (Z.ltb_spec a b)
      end; try done; lia.
Qed.

Section PushPop.
Context {A : Type} `{TotalOrder A}.
Implicit Types (h t : list A) (x : A).

Lemma ge_antisym (a b : A) : ge a b → ge b a → a = b.
Proof. unfold ge. intros. by apply ltb_total. Qed.

(** In a total order the root of a heap is the greatest element. *)
Lemma heap_root_is r t (l : list A) m :
  is_max_heap (r :: t) → r :: t ≡ₚ l → m ∈ l → (∀ x, x ∈ l → ge m x) → r = m.
Proof.
  intros Hh Hperm Hm Hmax. apply ge_antisym.
  - apply (heap_root_max_elem r t); [done|]. by rewrite Hperm.
  - apply Hmax. rewrite <- Hperm. by left.
Qed.

Lemma heappushpop_nil item : heappushpop item ([] : list A) = Ok item [].
Proof. done. Qed.

Lemma heappushpop_cons item r t :
  heappushpop item (r :: t) =
    if ltb item r
    then (setitem 0 item ;;; _siftdown 0 ;;; ret r) (r :: t)
    else Ok item (r :: t).
Proof.
  unfold heappushpop. unfold bind at 1. unfold len at 1.
  cbn [length Nat.ltb Nat.leb].
  unfold bind at 1.
  rewrite (bind_Ok _ _ _ _ _ (getitem_Some (r :: t) 0 r eq_refl)).
  unfold ret at 1. unfold gtb. destruct (ltb item r); [|done].
  by rewrite (bind_Ok _ _ _ _ _ (getitem_Some (r :: t) 0 r eq_refl)).
Qed.
End PushPop.

(** ** Merge yields every item once, on every input *)

Lemma tagged_values {V} order (iterables : list (list V)) :
  map fst (tagged order iterables) = concat iterables.
Proof.
  revert order. induction iterables as [|it rest IH]; intros order; [done|].
  simpl. rewrite map_app, IH. f_equal.
  rewrite map_map. simpl. apply map_id.
Qed.

Section MergeRuns.
Context {V Rec : Type} `{Ordered Rec}.
Variable current : Rec → V.
Variable order_of : Rec → nat.
Variable cursor : Rec → list V.
Variable advance : Rec → V → list V → Rec.
Hypothesis current_advance : ∀ s v more, current (advance s v more) = v.
Hypothesis order_advance : ∀ s v more, order_of (advance s v more) = order_of s.
Hypothesis cursor_advance : ∀ s v more, cursor (advance s v more) = more.
Implicit Types (h t : list Rec) (s r : Rec).

Local Notation "'serve'" := (serve_loop current order_of cursor advance).
Local Notation "'rounds'" := (merge_loop current order_of cursor advance).
Local Notation "'drain'" := (drain_last current order_of cursor).
Local Notation "'tail'" := (merge_tail current order_of cursor advance).
Local Notation "'pend'" := (pending current order_of cursor).
Local Notation "'evs_of'" := (events_of current order_of cursor).

Lemma pending_cons r t : pend (r :: t) = evs_of r ++ pend t.
Proof. done. Qed.

Lemma pending_advance s v more t :
  cursor s = v :: more →
  pend (s :: t) = (current s, order_of s) :: pend (advance s v more :: t).
Proof.
  intros Hc. rewrite !pending_cons. unfold events_of.
  by rewrite Hc, current_advance, order_advance, cursor_advance.
Qed.

Lemma serve_loop_done fuel s t :
  cursor s = [] →
  serve (S fuel) (s :: t) = Ok [(current s, order_of s)] (s :: t).
Proof.
  intros Hc. cbn [serve_loop].
  rewrite (bind_Ok _ _ _ _ _ (getitem_Some (s :: t) 0 s eq_refl)).
  by rewrite Hc.
Qed.

Lemma serve_loop_step fuel s t v more :
  cursor s = v :: more →
  serve (S fuel) (s :: t) =
    (heapreplace (advance s v more) ;;;
     out <- serve fuel ;;
     ret ((current s, order_of s) :: out)) (advance s v more :: t).
Proof.
  intros Hc. cbn [serve_loop].
  rewrite (bind_Ok _ _ _ _ _ (getitem_Some (s :: t) 0 s eq_refl)).
  rewrite Hc.
  by rewrite (bind_Ok _ _ _ _ _ (setitem_lt (s :: t) 0 _ ltac:(simpl; lia))).
Qed.

Lemma serve_loop_runs fuel h :
  h ≠ [] → length (pend h) ≤ fuel →
  ∃ out r t, serve fuel h = Ok out (r :: t)
             ∧ cursor r = [] ∧ length (r :: t) = length h
             ∧ (current r, order_of r) ∈ out
             ∧ pend h ≡ₚ out ++ pend t.
Proof.
  revert h. induction fuel as [|fuel IH]; intros [|s t] Hne Hf; try done.
  { rewrite pending_cons in Hf. simpl in Hf. lia. }
  destruct (cursor s) as [|v more] eqn:Hc.
  - exists [(current s, order_of s)], s, t.
    rewrite serve_loop_done by done. split_and!; [done..|by left|].
    rewrite pending_cons. unfold events_of. by rewrite Hc.
  - rewrite (serve_loop_step _ _ _ v more) by done.
    set (s' := advance s v more).
    destruct (heapreplace_runs s' s' t) as (h' & Hrep & Hperm & Hlen).
    rewrite (bind_Ok _ _ _ _ _ Hrep).
    assert (Hpend : pend h' ≡ₚ pend (s' :: t))
      by (unfold pending; by rewrite Hperm).
    destruct (IH h') as (out & r & t1 & Hrun & Hcr & Hlen1 & Hin & Hp).
    { by destruct h'. }
    { rewrite Hpend. rewrite (pending_advance s v more t Hc) in Hf.
      cbn [length] in Hf. fold s' in Hf. lia. }
    exists ((current s, order_of s) :: out), r, t1.
    rewrite (bind_Ok _ _ _ _ _ Hrun).
    split_and!; [done|done|simpl in *; lia|by right|].
    rewrite (pending_advance s v more t Hc). fold s'.
    by rewrite <- Hpend, Hp.
Qed.

Lemma merge_loop_runs fuel h :
  length (pend h) < fuel →
  ∃ out h', rounds fuel h = Ok out h' ∧ length h' ≤ 1
            ∧ pend h ≡ₚ out ++ pend h'.
Proof.
  revert h. induction fuel as [|fuel IH]; intros h Hf; [lia|].
  cbn [merge_loop]. unfold bind at 1. unfold len at 1.
  destruct (Nat.ltb_spec 1 (length h)) as [Hn|Hn]; [|by exists [], h].
  destruct (serve_loop_runs fuel h) as (out & r & t & Hrun & Hcr & Hlen & Hin & Hp).
  { intros ->. simpl in Hn. lia. }
  { lia. }
  rewrite (bind_Ok _ _ _ _ _ Hrun).
  destruct (heappop_runs r t) as (h2 & Hpop & Hperm & Hlen2).
  rewrite (bind_Ok _ _ _ _ _ Hpop).
  assert (Hpend : pend h2 ≡ₚ pend t) by (unfold pending; by rewrite Hperm).
  destruct (IH h2) as (rest & h' & Hrest & Hlen' & Hp').
  { rewrite Hpend. apply Permutation_length in Hp.
    rewrite length_app in Hp. destruct out; [by apply elem_of_nil in Hin|].
    cbn [length] in Hp. lia. }
  exists (out ++ rest), h'. rewrite (bind_Ok _ _ _ _ _ Hrest).
  split_and!; [done..|].
  by rewrite Hp, <- Hpend, Hp', (assoc_L (++)).
Qed.

Lemma drain_last_runs h :
  length h ≤ 1 → drain h = Ok (pend h) h.
Proof.
  intros Hlen. unfold drain_last. unfold bind at 1. unfold len at 1.
  destruct h as [|s [|? ?]]; [done| |simpl in Hlen; lia].
  cbn [length Nat.ltb Nat.leb].
  rewrite (bind_Ok _ _ _ _ _ (getitem_Some [s] 0 s eq_refl)).
  unfold ret, pending. simpl. by rewrite app_nil_r.
Qed.

Lemma merge_tail_runs fuel h :
  length (pend h) < fuel →
  ∃ out h', tail fuel h = Ok out h' ∧ out ≡ₚ pend h.
Proof.
  intros Hf. destruct (merge_loop_runs fuel h Hf) as (out & h' & Hrun & Hlen & Hp).
  exists (out ++ pend h'), h'. unfold merge_tail.
  rewrite (bind_Ok _ _ _ _ _ Hrun), (bind_Ok _ _ _ _ _ (drain_last_runs h' Hlen)).
  done.
Qed.
End MergeRuns.

Lemma tagged_length {V} order (iterables : list (list V)) :
  length (tagged order iterables) = length (concat iterables).
Proof. by rewrite <- (tagged_values order), length_map. Qed.

Section MergeNoKeyRuns.
Context {V : Type} `{Ordered V} `{PyEq V}.
Implicit Types (h : list (rec3 V)).

Lemma pending3_snoc h v order more :
  pending3 (h ++ [(v, order, more)])
  = pending3 h ++ map (fun v => (v, order)) (v :: more).
Proof.
  unfold pending3, pending. rewrite bind_app. f_equal. simpl.
  by rewrite app_nil_r.
Qed.

Lemma fill3_runs iterables order h :
  ∃ h', fill3 order iterables h = Ok tt h'
        ∧ pending3 h' ≡ₚ pending3 h ++ tagged order iterables.
Proof.
  revert order h. induction iterables as [|it rest IH]; intros order h.
  { exists h. by rewrite app_nil_r. }
  cbn [fill3 tagged].
  destruct it as [|v more].
  - unfold bind at 1. unfold ret at 1.
    destruct (heapify_runs h) as (h1 & Hheap & _ & Hperm).
    rewrite (bind_Ok _ _ _ _ _ Hheap).
    destruct (IH (S order) h1) as (h' & Hrun & Hp).
    exists h'. split; [done|]. rewrite Hp. simpl. f_equiv.
    unfold pending3, pending. by rewrite Hperm.
  - unfold bind at 1. unfold append at 1.
    destruct (heapify_runs (h ++ [(v, order, more)])) as (h1 & Hheap & _ & Hperm).
    rewrite (bind_Ok _ _ _ _ _ Hheap).
    destruct (IH (S order) h1) as (h' & Hrun & Hp).
    exists h'. split; [done|]. rewrite Hp, (assoc_L (++)). f_equiv.
    rewrite <- pending3_snoc. unfold pending3, pending. by rewrite Hperm.
Qed.

Lemma merge_nokey_events_runs iterables :
  ∃ evs h', merge_nokey_events iterables [] = Ok evs h'
            ∧ evs ≡ₚ tagged 0 iterables.
Proof.
  destruct (fill3_runs iterables 0 []) as (h0 & Hfill & Hp0).
  destruct (merge_tail_runs current3 order3 cursor3 advance3
              ltac:(done) ltac:(done) ltac:(done)
              (S (length (concat iterables))) h0) as (evs & h' & Hrun & Hp).
  { fold (pending3 h0). rewrite Hp0. simpl. rewrite tagged_length. lia. }
  exists evs, h'. unfold merge_nokey_events.
  rewrite (bind_Ok _ _ _ _ _ Hfill). split; [done|].
  by rewrite Hp.
Qed.
End MergeNoKeyRuns.

Section MergeKeyRuns.
Context {K V : Type} `{Ordered K} `{PyEq K}.
Variable key : V → K.
Implicit Types (h : list (rec4 K V)).

Lemma pending4_snoc h k v order more :
  pending4 (h ++ [(k, order, v, more)])
  = pending4 h ++ map (fun v => (v, order)) (v :: more).
Proof.
  unfold pending4, pending. rewrite bind_app. f_equal. simpl.
  by rewrite app_nil_r.
Qed.

Lemma fill4_runs iterables order h :
  ∃ h', fill4 key order iterables h = Ok tt h'
        ∧ pending4 h' = pending4 h ++ tagged order iterables.
Proof.
  revert order h. induction iterables as [|it rest IH]; intros order h.
  { exists h. by rewrite app_nil_r. }
  cbn [fill4 tagged].
  destruct it as [|v more].
  - unfold bind at 1. unfold ret at 1.
    destruct (IH (S order) h) as (h' & Hrun & Hp). by exists h'.
  - unfold bind at 1. unfold append at 1.
    destruct (IH (S order) (h ++ [(key v, order, v, more)])) as (h' & Hrun & Hp).
    exists h'. split; [done|]. by rewrite Hp, pending4_snoc, (assoc_L (++)).
Qed.

Lemma merge_key_events_runs iterables :
  ∃ evs h', merge_key_events key iterables [] = Ok evs h'
            ∧ evs ≡ₚ tagged 0 iterables.
Proof.
  destruct (fill4_runs iterables 0 []) as (h0 & Hfill & Hp0).
  destruct (heapify_runs h0) as (h1 & Hheap & _ & Hperm).
  assert (Hp1 : pending4 h1 ≡ₚ tagged 0 iterables).
  { change (pending4 h0 = tagged 0 iterables) in Hp0.
    rewrite <- Hp0. unfold pending4, pending. by rewrite Hperm. }
  destruct (merge_tail_runs current4 order4 cursor4 (advance4 key)
              ltac:(done) ltac:(done) ltac:(done)
              (S (length (concat iterables))) h1) as (evs & h' & Hrun & Hp).
  { fold (pending4 h1). rewrite Hp1, tagged_length. lia. }
  exists evs, h'. unfold merge_key_events.
  rewrite (bind_Ok _ _ _ _ _ Hfill), (bind_Ok _ _ _ _ _ Hheap).
  split; [done|]. by rewrite Hp.
Qed.
End MergeKeyRuns.

(** ** The order of the records *)

Section LexOrder.
Context {K : Type} `{TotalOrder K} `{!PyEq K} `{!EqDecides K}.

Lemma eqb_refl (k : K) : eqb k k = true.
Proof. by apply eqb_eq. Qed.

Lemma eqb_false (k k' : K) : eqb k k' = false ↔ k ≠ k'.
Proof.
  split.
  - intros E ->. by rewrite eqb_refl in E.
  - intros Hne. destruct (eqb k k') eqn:E; [|done]. by apply eqb_eq in E.
Qed.

#[local] Instance key_eq_dec : EqDecision K.
Proof.
  intros a b. destruct (eqb a b) eqn:E.
  - left. by apply eqb_eq.
  - right. by apply eqb_false.
Qed.

Lemma lex_ltb_same_key k o o' : lex_ltb k o k o' = Nat.ltb o o'.
Proof.
  unfold lex_ltb. rewrite eqb_refl.
  destruct (Nat.eqb_spec o o') as [->|]; [|done]. by rewrite Nat.ltb_irrefl.
Qed.

Lemma lex_ltb_other_key k o k' o' : k ≠ k' → lex_ltb k o k' o' = ltb k k'.
Proof. intros Hne. unfold lex_ltb. by rewrite (proj2 (eqb_false k k') Hne). Qed.

Lemma lex_ltb_asym k o k' o' :
  lex_ltb k o k' o' = true → lex_ltb k' o' k o = false.
Proof.
  destruct (decide (k = k')) as [->|Hne].
  - rewrite !lex_ltb_same_key. intros Ho%Nat.ltb_lt. apply Nat.ltb_ge. lia.
  - rewrite !lex_ltb_other_key by done. apply ltb_asym.
Qed.

Lemma lex_ltb_negtrans k1 o1 k2 o2 k3 o3 :
  lex_ltb k1 o1 k2 o2 = false → lex_ltb k2 o2 k3 o3 = false →
  lex_ltb k1 o1 k3 o3 = false.
Proof.
  destruct (decide (k1 = k2)) as [->|H12]; destruct (decide (k2 = k3)) as [->|H23].
  - rewrite !lex_ltb_same_key.
    intros Ha%Nat.ltb_ge Hb%Nat.ltb_ge. apply Nat.ltb_ge. lia.
  - rewrite lex_ltb_same_key, !(lex_ltb_other_key k2 _ k3) by done. done.
  - rewrite lex_ltb_same_key, !(lex_ltb_other_key k1 _ k3) by done. done.
  - rewrite (lex_ltb_other_key k1 _ k2), (lex_ltb_other_key k2 _ k3) by done.
    intros Ha Hb. destruct (decide (k1 = k3)) as [->|H13].
    + destruct H12. by apply ltb_total.
    + rewrite lex_ltb_other_key by done. by eapply ltb_negtrans.
Qed.


Lemma lex_ltb_key_ge k o k' o' : lex_ltb k o k' o' = false → ge k k'.
Proof.
  destruct (decide (k = k')) as [->|Hne].
  - intros _. apply ge_refl.
  - by rewrite lex_ltb_other_key.
Qed.

Lemma lex_ltb_same_order k k' o : ge k k' → lex_ltb k o k' o = false.
Proof.
  intros Hge. destruct (decide (k = k')) as [->|Hne].
  - rewrite lex_ltb_same_key. apply Nat.ltb_irrefl.
  - by rewrite lex_ltb_other_key.
Qed.

#[global] Instance rec3_weak : WeakOrder (rec3 K).
Proof.
  split.
  - intros [[k o] n] [[k' o'] n']. apply lex_ltb_asym.
  - intros [[k1 o1] n1] [[k2 o2] n2] [[k3 o3] n3]. apply lex_ltb_negtrans.
Qed.

#[global] Instance rec4_weak {V} : WeakOrder (rec4 K V).
Proof.
  split.
  - intros [[[k o] v] n] [[[k' o'] v'] n']. apply lex_ltb_asym.
  - intros [[[k1 o1] v1] n1] [[[k2 o2] v2] n2] [[[k3 o3] v3] n3].
    apply lex_ltb_negtrans.
Qed.
End LexOrder.

(** ** Merge of descending inputs *)

Section MergeOrder.
Context {K V Rec : Type} `{TotalOrder K} `{!PyEq K} `{!EqDecides K}.
Context `{Ordered Rec}.
Variable key : V → K.
Variable rkey : Rec → K.
Variable current : Rec → V.
Variable order_of : Rec → nat.
Variable cursor : Rec → list V.
Variable advance : Rec → V → list V → Rec.
Hypothesis current_advance : ∀ s v more, current (advance s v more) = v.
Hypothesis order_advance : ∀ s v more, order_of (advance s v more) = order_of s.
Hypothesis cursor_advance : ∀ s v more, cursor (advance s v more) = more.
Hypothesis rkey_advance : ∀ s v more, rkey (advance s v more) = key v.
Hypothesis rec_ltb : ∀ r r' : Rec,
  ltb r r' = lex_ltb (rkey r) (order_of r) (rkey r') (order_of r').
Implicit Types (h t : list Rec) (s r : Rec) (e : V * nat).

Local Notation "'serve'" := (serve_loop current order_of cursor advance).
Local Notation "'rounds'" := (merge_loop current order_of cursor advance).
Local Notation "'drain'" := (drain_last current order_of cursor).
Local Notation "'tail'" := (merge_tail current order_of cursor advance).
Local Notation "'pend'" := (pending current order_of cursor).
Local Notation "'evs_of'" := (events_of current order_of cursor).
Local Notation "'goodr'" := (good key rkey current cursor).

#[local] Instance rec_weak : WeakOrder Rec.
Proof.
  split.
  - intros a b. rewrite !rec_ltb. apply lex_ltb_asym.
  - intros a b c. rewrite !rec_ltb. apply lex_ltb_negtrans.
Qed.

#[local] Instance ev_ge_trans : Transitive (ev_ge key).
Proof. intros a b c. unfold ev_ge. apply lex_ltb_negtrans. Qed.

#[local] Instance key_ge_trans : Transitive (key_ge key).
Proof. intros a b c. unfold key_ge. apply ge_trans. Qed.

Lemma tag_sorted o (l : list V) :
  StronglySorted (key_ge key) l →
  StronglySorted (ev_ge key) (map (fun v => (v, o)) l).
Proof.
  induction 1 as [|a l Hs IH Hall]; simpl; constructor; [done|].
  rewrite Forall_map. eapply Forall_impl; [exact Hall|].
  intros b Hb. unfold ev_ge. simpl. apply lex_ltb_same_order. exact Hb.
Qed.

Lemma events_of_sorted r : goodr r → StronglySorted (ev_ge key) (evs_of r).
Proof. intros [_ Hs]. by apply (tag_sorted (order_of r)) in Hs. Qed.

Lemma events_of_le r e :
  goodr r → e ∈ evs_of r → ev_ge key (current r, order_of r) e.
Proof.
  intros Hg He. pose proof (events_of_sorted r Hg) as Hs.
  unfold events_of in *. apply elem_of_cons in He as [->|He].
  - unfold ev_ge. by apply lex_ltb_same_order, ge_refl.
  - apply StronglySorted_inv in Hs as [_ Hall].
    rewrite Forall_forall in Hall. by apply Hall.
Qed.

Lemma pending_le_root s t e :
  is_max_heap (s :: t) → Forall goodr (s :: t) → e ∈ pend (s :: t) →
  ev_ge key (current s, order_of s) e.
Proof.
  intros Hh Hg He. unfold pending in He.
  apply list_elem_of_bind in He as (r & He & Hr).
  rewrite Forall_forall in Hg.
  transitivity (current r, order_of r).
  - pose proof (heap_root_max_elem s t r Hh Hr) as Hge.
    unfold ge in Hge. rewrite rec_ltb in Hge. unfold ev_ge. simpl.
    by rewrite <- (proj1 (Hg s ltac:(by left))), <- (proj1 (Hg r Hr)).
  - by apply events_of_le; [apply Hg|].
Qed.

Lemma good_advance s v more :
  goodr s → cursor s = v :: more → goodr (advance s v more).
Proof.
  intros [_ Hs] Hc. split.
  - by rewrite rkey_advance, current_advance.
  - rewrite current_advance, cursor_advance. rewrite Hc in Hs.
    by apply StronglySorted_inv in Hs as [? _].
Qed.

Lemma pend_perm h h' : h ≡ₚ h' → pend h ≡ₚ pend h'.
Proof. intros Hp. unfold pending. by rewrite Hp. Qed.

Lemma serve_loop_sorted fuel h out h1 :
  serve fuel h = Ok out h1 → is_max_heap h → Forall goodr h →
  is_max_heap h1 ∧ Forall goodr h1 ∧ StronglySorted (ev_ge key) out
  ∧ (∀ a e, a ∈ out → e ∈ pend h1 → ev_ge key a e)
  ∧ (∀ e, e ∈ pend h1 → e ∈ pend h)
  ∧ (∀ a, a ∈ out → a ∈ pend h).
Proof.
  revert h out h1. induction fuel as [|fuel IH]; intros h out h1 Hrun Hh Hg;
    [done|].
  destruct h as [|s t]; [done|].
  destruct (cursor s) as [|v more] eqn:Hc.
  - rewrite serve_loop_done in Hrun by done. injection Hrun as <- <-.
    split_and!; [done|done|repeat constructor| |done|].
    + intros a e ->%list_elem_of_singleton He. by apply (pending_le_root s t).
    + intros a ->%list_elem_of_singleton. rewrite pending_cons. by left.
  - rewrite (serve_loop_step current order_of cursor advance fuel s t v more Hc)
      in Hrun.
    set (s' := advance s v more) in *.
    destruct (heapreplace_runs s' s' t) as (h' & Hrep & Hperm & Hlen).
    rewrite (bind_Ok _ _ _ _ _ Hrep) in Hrun. unfold bind in Hrun.
    destruct (serve fuel h') as [out' h1'| |] eqn:Hrest; [|done..].
    injection Hrun as <- <-.
    assert (Hh' : is_max_heap h').
    { eapply heapreplace_heap; [exact Hrep|].
      apply (heap_from_insert_root (s :: t) s').
      eapply heap_from_mono; [|by apply is_max_heap_from]. lia. }
    assert (Hg' : Forall goodr h').
    { rewrite Hperm. apply Forall_cons in Hg as [Hgs Hgt].
      constructor; [by apply good_advance|done]. }
    destruct (IH h' out' h1' Hrest Hh' Hg') as (S1 & S2 & S3 & S4 & S5 & S6).
    assert (Hsub : ∀ e, e ∈ pend h' → e ∈ pend (s :: t)).
    { intros e He. rewrite (pend_perm _ _ Hperm) in He.
      rewrite (pending_advance _ _ _ _ current_advance order_advance
                 cursor_advance s v more t Hc). by right. }
    split_and!; [done|done| | |by auto|].
    + constructor; [done|]. apply Forall_forall. intros e He.
      apply (pending_le_root s t); auto.
    + intros a e [->|Ha]%elem_of_cons He; [|by auto].
      apply (pending_le_root s t); auto.
    + intros a [->|Ha]%elem_of_cons; [|by auto].
      rewrite pending_cons. by left.
Qed.

Lemma merge_loop_sorted fuel h out h' :
  rounds fuel h = Ok out h' → is_max_heap h → Forall goodr h →
  length h' ≤ 1 ∧ Forall goodr h' ∧ StronglySorted (ev_ge key) out
  ∧ (∀ a e, a ∈ out → e ∈ pend h' → ev_ge key a e)
  ∧ (∀ e, e ∈ pend h' → e ∈ pend h)
  ∧ (∀ a, a ∈ out → a ∈ pend h).
Proof.
  revert h out h'. induction fuel as [|fuel IH]; intros h out h' Hrun Hh Hg;
    [done|].
  cbn [merge_loop] in Hrun. unfold bind at 1 in Hrun. unfold len at 1 in Hrun.
  destruct (Nat.ltb_spec 1 (length h)) as [Hn|Hn].
  2:{ injection Hrun as <- <-. split_and!; [done|done|constructor| |done|].
      - intros a e Ha. by apply elem_of_nil in Ha.
      - intros a Ha. by apply elem_of_nil in Ha. }
  unfold bind at 1 in Hrun.
  destruct (serve fuel h) as [out1 h1| |] eqn:Hserve; [|done..].
  destruct (serve_loop_sorted _ _ _ _ Hserve Hh Hg) as (S1 & S2 & S3 & S4 & S5 & S6).
  destruct h1 as [|r t]; [done|].
  destruct (heappop_runs r t) as (h2 & Hpop & Hperm & _).
  rewrite (bind_Ok _ _ _ _ _ Hpop) in Hrun. unfold bind in Hrun.
  destruct (rounds fuel h2) as [rest h3| |] eqn:Hrest; [|done..].
  injection Hrun as <- <-.
  assert (Hsub : ∀ e, e ∈ pend h2 → e ∈ pend (r :: t)).
  { intros e He. rewrite (pend_perm _ _ Hperm) in He.
    rewrite pending_cons. apply elem_of_app. by right. }
  destruct (IH h2 rest h3 Hrest) as (I1 & I2 & I3 & I4 & I5 & I6).
  { by eapply heappop_heap. }
  { rewrite Hperm. by apply Forall_cons in S2 as [_ ?]. }
  split_and!; [done|done| | |by auto|].
  - apply StronglySorted_app_2; [|done..].
    intros a b Ha Hb. apply S4; auto.
  - intros a e [Ha|Ha]%elem_of_app He; [|by auto].
    apply S4; auto.
  - intros a [Ha|Ha]%elem_of_app; auto.
Qed.

Lemma merge_tail_sorted fuel h out h' :
  tail fuel h = Ok out h' → is_max_heap h → Forall goodr h →
  StronglySorted (ev_ge key) out.
Proof.
  intros Hrun Hh Hg. unfold merge_tail in Hrun. unfold bind at 1 in Hrun.
  destruct (rounds fuel h) as [out1 h1| |] eqn:Hloop; [|done..].
  destruct (merge_loop_sorted _ _ _ _ Hloop Hh Hg) as (S1 & S2 & S3 & S4 & _ & _).
  rewrite (bind_Ok _ _ _ _ _ (drain_last_runs current order_of cursor h1 S1))
    in Hrun.
  injection Hrun as <- <-.
  apply StronglySorted_app_2; [by auto|done|].
  destruct h1 as [|s [|? ?]]; [constructor| |simpl in S1; lia].
  rewrite pending_cons. unfold pending. simpl. rewrite app_nil_r.
  apply events_of_sorted. by apply Forall_cons in S2 as [? _].
Qed.
End MergeOrder.

Section MergeNoKeyOrder.
Context {V : Type} `{TotalOrder V} `{!PyEq V} `{!EqDecides V}.
Implicit Types (h : list (rec3 V)).

Lemma rec3_ltb (r r' : rec3 V) :
  ltb r r' = lex_ltb (current3 r) (order3 r) (current3 r') (order3 r').
Proof. by destruct r as [[v o] n], r' as [[v' o'] n']. Qed.

Lemma fill3_good iterables order h h' :
  fill3 order iterables h = Ok tt h' →
  Forall (StronglySorted (key_ge own_key)) iterables →
  is_max_heap h → Forall good3 h →
  is_max_heap h' ∧ Forall good3 h'.
Proof.
  revert order h. induction iterables as [|it rest IH];
    intros order h Hrun Hs Hh Hg.
  { by injection Hrun as <-. }
  apply Forall_cons in Hs as [Hit Hrest].
  cbn [fill3] in Hrun. unfold bind at 1 in Hrun.
  destruct it as [|v more].
  - unfold ret at 1 in Hrun.
    destruct (heapify_runs h) as (h1 & Hheap & _ & Hperm).
    rewrite (bind_Ok _ _ _ _ _ Hheap) in Hrun.
    eapply IH; [exact Hrun|done|by eapply heapify_heap|by rewrite Hperm].
  - unfold append at 1 in Hrun.
    destruct (heapify_runs (h ++ [(v, order, more)])) as (h1 & Hheap & _ & Hperm).
    rewrite (bind_Ok _ _ _ _ _ Hheap) in Hrun.
    eapply IH; [exact Hrun|done|by eapply heapify_heap|].
    rewrite Hperm. apply Forall_app. split; [done|].
    apply Forall_singleton. by split.
Qed.

Lemma merge_nokey_events_sorted iterables evs h' :
  merge_nokey_events iterables [] = Ok evs h' →
  Forall (StronglySorted (key_ge own_key)) iterables →
  StronglySorted (ev_ge own_key) evs.
Proof.
  intros Hrun Hs. unfold merge_nokey_events in Hrun.
  destruct (fill3_runs iterables 0 []) as (h0 & Hfill & _).
  rewrite (bind_Ok _ _ _ _ _ Hfill) in Hrun.
  destruct (fill3_good _ _ _ _ Hfill Hs is_max_heap_nil ltac:(constructor))
    as [Hh Hg].
  eapply (merge_tail_sorted own_key current3 current3 order3 cursor3 advance3);
    [done|done|done|done|apply rec3_ltb|exact Hrun|done|done].
Qed.
End MergeNoKeyOrder.

Section MergeKeyOrder.
Context {K V : Type} `{TotalOrder K} `{!PyEq K} `{!EqDecides K}.
Variable key : V → K.
Implicit Types (h : list (rec4 K V)).

Lemma rec4_ltb (r r' : rec4 K V) :
  ltb r r' = lex_ltb (rkey4 r) (order4 r) (rkey4 r') (order4 r').
Proof. by destruct r as [[[k o] v] n], r' as [[[k' o'] v'] n']. Qed.

Lemma fill4_good iterables order h h' :
  fill4 key order iterables h = Ok tt h' →
  Forall (StronglySorted (key_ge key)) iterables →
  Forall (good4 key) h → Forall (good4 key) h'.
Proof.
  revert order h. induction iterables as [|it rest IH];
    intros order h Hrun Hs Hg.
  { by injection Hrun as <-. }
  apply Forall_cons in Hs as [Hit Hrest].
  cbn [fill4] in Hrun. unfold bind at 1 in Hrun.
  destruct it as [|v more].
  - unfold ret at 1 in Hrun. by eapply IH.
  - unfold append at 1 in Hrun.
    eapply IH; [exact Hrun|done|].
    apply Forall_app. split; [done|]. apply Forall_singleton. by split.
Qed.

Lemma merge_key_events_sorted iterables evs h' :
  merge_key_events key iterables [] = Ok evs h' →
  Forall (StronglySorted (key_ge key)) iterables →
  StronglySorted (ev_ge key) evs.
Proof.
  intros Hrun Hs. unfold merge_key_events in Hrun.
  destruct (fill4_runs key iterables 0 []) as (h0 & Hfill & _).
  rewrite (bind_Ok _ _ _ _ _ Hfill) in Hrun.
  pose proof (fill4_good _ _ _ _ Hfill Hs ltac:(constructor)) as Hg.
  destruct (heapify_runs h0) as (h1 & Hheap & _ & Hperm).
  rewrite (bind_Ok _ _ _ _ _ Hheap) in Hrun.
  eapply (merge_tail_sorted key rkey4 current4 order4 cursor4 (advance4 key));
    [done|done|done|done|apply rec4_ltb|exact Hrun|by eapply heapify_heap|].
  by rewrite Hperm.
Qed.
End MergeKeyOrder.

(** ** Running the checks *)

Lemma descending_byb_spec {K V} `{Ordered K} (key : V → K) (l : list V) :
  descending_byb key l = true ↔ descending_by key l.
Proof.
  unfold descending_by. induction l as [|a t IH]; simpl.
  - split; [constructor|done].
  - rewrite andb_true_iff, IH, StronglySorted_cons, forallb_forall, Forall_forall.
    apply and_iff_compat_r. unfold key_ge, ge, geb.
    split; intros Hall b Hb.
    + apply list_elem_of_In in Hb. specialize (Hall b Hb). by destruct (ltb _ _).
    + apply list_elem_of_In in Hb. by rewrite (Hall b Hb).
Qed.

Lemma descendingb_spec {A} `{Ordered A} (l : list A) :
  descendingb l = true ↔ descending l.
Proof. apply descending_byb_spec. Qed.

Lemma all_descendingb_spec {K V} `{Ordered K} (key : V → K) (ls : list (list V)) :
  forallb (descending_byb key) ls = true → Forall (descending_by key) ls.
Proof.
  rewrite forallb_forall, Forall_forall. intros Hall l Hl.
  apply descending_byb_spec, Hall. by apply list_elem_of_In.
Qed.


(** * Main results *)

(** C1.  On every list whose elements are ordered by [<] (a strict weak
    order: integers, duplicates and negative numbers included), [heapify]
    returns and leaves in the list a permutation of its elements that
    satisfies the max-heap invariant: every [element[i]] is not below
    [element[2i+1]] and [element[2i+2]] where these exist. *)
Theorem heapify_max_heap {A : Type} `{WeakOrder A} (h : list A) :
  ∃ h', heapify h = Ok tt h' ∧ h' ≡ₚ h ∧ is_max_heap h'.
Proof.
  destruct (heapify_runs h) as (h' & Hrun & _ & Hperm).
  exists h'. split_and!; [done..|]. by eapply heapify_heap.
Qed.

Lemma heapify_max_heap_witness :
  (∃ h', heapify [-7; 10; 12; -33; -4; 2; 5; 5; -99]%Z = Ok tt h'
         ∧ h' ≡ₚ [-7; 10; 12; -33; -4; 2; 5; 5; -99]%Z ∧ is_max_heap h')
  ∧ (∃ h', heapify [11 # 2; 3 # 1; 37 # 5; 77 # 10; 1 # 1; 333 # 100; 203 # 20]%Q
           = Ok tt h'
           ∧ h' ≡ₚ [11 # 2; 3 # 1; 37 # 5; 77 # 10; 1 # 1; 333 # 100; 203 # 20]%Q
           ∧ is_max_heap h').
Proof.
  split.
  - exact (@heapify_max_heap Z Z_ordered Z_weak _).
  - exact (@heapify_max_heap Q Q_ordered Q_weak _).
Defined.

(** C3.  On a non-empty list that satisfies the max-heap invariant,
    [heappop] returns the element at index 0, which is not below any
    element of the list; the list it leaves is one element shorter, holds
    exactly the other elements and satisfies the invariant; a list of one
    element is left empty. *)
Theorem heappop_max_heap {A : Type} `{WeakOrder A} (h : list A) :
  is_max_heap h → h ≠ [] →
  ∃ x h', heappop h = Ok x h'
          ∧ h !! 0 = Some x
          ∧ (∀ y, y ∈ h → ge x y)
          ∧ S (length h') = length h
          ∧ h ≡ₚ x :: h'
          ∧ is_max_heap h'
          ∧ (length h = 1 → h' = []).
Proof.
  intros Hh Hne. destruct h as [|x t]; [done|].
  destruct (heappop_runs x t) as (h' & Hrun & Hperm & Hlen).
  exists x, h'. split_and!; [done|done| |simpl; lia|by rewrite Hperm| |].
  - intros y Hy. by apply (heap_root_max_elem x t).
  - by eapply heappop_heap.
  - simpl. intros Ht. destruct h'; [done|]. simpl in Hlen. lia.
Qed.

Lemma heappop_max_heap_witness :
  ∃ x h', heappop [9; 7; 4; 6; 6; 2]%Z = Ok x h'
          ∧ [9; 7; 4; 6; 6; 2]%Z !! 0 = Some x
          ∧ (∀ y, y ∈ [9; 7; 4; 6; 6; 2]%Z → ge x y)
          ∧ S (length h') = length [9; 7; 4; 6; 6; 2]%Z
          ∧ [9; 7; 4; 6; 6; 2]%Z ≡ₚ x :: h'
          ∧ is_max_heap h'
          ∧ (length [9; 7; 4; 6; 6; 2]%Z = 1 → h' = []).
Proof.
  apply (@heappop_max_heap Z Z_ordered Z_weak).
  - apply is_max_heapb_spec. reflexivity.
  - discriminate.
Defined.

(** C4.  After [heapify], popping with [heappop] until the list is empty
    gives the elements of the original list in non-increasing order: the
    popped values are a permutation of the list and none is below a later
    one. *)
Theorem heapify_pop_all_descending {A : Type} `{WeakOrder A} (h : list A) :
  ∃ out, (heapify ;;; pop_all) h = Ok out [] ∧ out ≡ₚ h ∧ descending out.
Proof.
  destruct (heapify_runs h) as (h1 & Hheap & _ & Hperm).
  destruct (pop_rounds_runs (length h1) h1 eq_refl) as (out & Hpop & Hp).
  exists out. rewrite (bind_Ok _ _ _ _ _ Hheap).
  unfold pop_all, bind, len. split_and!; [done|by rewrite Hp|].
  eapply pop_rounds_sorted; [exact Hpop|by eapply heapify_heap].
Qed.

Lemma heapify_pop_all_descending_witness :
  ∃ out, (heapify ;;; pop_all) [4; 6; 2; 1; 7; 9; 2; 6; 2; 1]%Z = Ok out []
         ∧ out ≡ₚ [4; 6; 2; 1; 7; 9; 2; 6; 2; 1]%Z ∧ descending out.
Proof. exact (@heapify_pop_all_descending Z Z_ordered Z_weak _). Defined.

(** C7 does not hold as stated when two different elements can tie: with
    elements compared by a priority alone, on the heap [(1,0)] and with the
    item (1,1), [heappushpop] returns the item and leaves (1,0), while
    [heappush] followed by [heappop] returns (1,0) and leaves the item. *)
Lemma heappushpop_tie_differs :
  @is_max_heap _ by_priority [(1, 0)]%Z
  ∧ @heappushpop _ by_priority (1, 1)%Z [(1, 0)]%Z = Ok (1, 1)%Z [(1, 0)]%Z
  ∧ (@heappush _ by_priority (1, 1)%Z ;;; @heappop _ by_priority) [(1, 0)]%Z
    = Ok (1, 0)%Z [(1, 1)]%Z
  ∧ ¬ [(1, 0)]%Z ≡ₚ [(1, 1)]%Z.
Proof.
  split_and!; [|reflexivity|reflexivity|].
  - apply (@is_max_heapb_spec _ by_priority). reflexivity.
  - intros Hp. apply Permutation_singleton_inj in Hp. discriminate.
Qed.

(** C7, amended.  On a list that satisfies the max-heap invariant, the
    empty list included, what [heappushpop] returns and what [heappush]
    followed by [heappop] returns tie: neither is below the other.  In
    both cases the value returned together with the list left is a
    permutation of the item together with the list, and the list left
    satisfies the invariant.  Where elements that tie are equal, the two
    return the same value and leave lists with the same elements.  On the
    empty list the item comes back and the list stays empty. *)
Theorem heappushpop_push_pop_ties {A : Type} `{WeakOrder A} (item : A) (h : list A) :
  is_max_heap h →
  ∃ v h1 v' h2, heappushpop item h = Ok v h1
                ∧ (heappush item ;;; heappop) h = Ok v' h2
                ∧ ge v v' ∧ ge v' v
                ∧ v :: h1 ≡ₚ item :: h ∧ v' :: h2 ≡ₚ item :: h
                ∧ is_max_heap h1 ∧ is_max_heap h2
                ∧ (h = [] → v = item ∧ h1 = [])
                ∧ ((∀ a b : A, ge a b → ge b a → a = b) → v = v' ∧ h1 ≡ₚ h2).
Proof.
  intros Hh.
  destruct (heappushpop_max item h Hh) as (v & h1 & Hpp & Hh1 & Hp1 & Hv & Hnil).
  destruct (push_pop_max item h Hh) as (v' & h2 & Hseq & Hh2 & Hp2 & Hv').
  exists v, h1, v', h2.
  assert (Hvv' : ge v v').
  { apply Hv. rewrite <- Hp2. by left. }
  assert (Hv'v : ge v' v).
  { apply Hv'. rewrite <- Hp1. by left. }
  split_and!; [done..|].
  intros Hanti. assert (v = v') as <- by (by apply Hanti).
  split; [done|]. apply (Permutation_cons_inv (a:=v)). by rewrite Hp1, Hp2.
Qed.

Lemma heappushpop_push_pop_ties_witness :
  (∃ v h1 v' h2, heappushpop 5%Z [9; 7; 4; 6; 6; 2]%Z = Ok v h1
                 ∧ (heappush 5%Z ;;; heappop) [9; 7; 4; 6; 6; 2]%Z = Ok v' h2
                 ∧ ge v v' ∧ ge v' v
                 ∧ v :: h1 ≡ₚ 5%Z :: [9; 7; 4; 6; 6; 2]%Z
                 ∧ v' :: h2 ≡ₚ 5%Z :: [9; 7; 4; 6; 6; 2]%Z
                 ∧ is_max_heap h1 ∧ is_max_heap h2
                 ∧ ([9; 7; 4; 6; 6; 2]%Z = [] → v = 5%Z ∧ h1 = [])
                 ∧ ((∀ a b : Z, ge a b → ge b a → a = b) → v = v' ∧ h1 ≡ₚ h2))
  ∧ (∃ v h1 v' h2, heappushpop 4%Z [] = Ok v h1
                   ∧ (heappush 4%Z ;;; heappop) [] = Ok v' h2
                   ∧ ge v v' ∧ ge v' v
                   ∧ v :: h1 ≡ₚ [4%Z] ∧ v' :: h2 ≡ₚ [4%Z]
                   ∧ is_max_heap h1 ∧ is_max_heap h2
                   ∧ (([] : list Z) = [] → v = 4%Z ∧ h1 = [])
                   ∧ ((∀ a b : Z, ge a b → ge b a → a = b) → v = v' ∧ h1 ≡ₚ h2))
  ∧ (∃ v h1 v' h2, @heappushpop _ by_priority (1, 1)%Z [(3, 0); (1, 0); (2, 0)]%Z
                   = Ok v h1
                   ∧ (@heappush _ by_priority (1, 1)%Z ;;; @heappop _ by_priority)
                       [(3, 0); (1, 0); (2, 0)]%Z = Ok v' h2
                   ∧ @ge _ by_priority v v' ∧ @ge _ by_priority v' v
                   ∧ v :: h1 ≡ₚ (1, 1)%Z :: [(3, 0); (1, 0); (2, 0)]%Z
                   ∧ v' :: h2 ≡ₚ (1, 1)%Z :: [(3, 0); (1, 0); (2, 0)]%Z
                   ∧ @is_max_heap _ by_priority h1 ∧ @is_max_heap _ by_priority h2
                   ∧ ([(3, 0); (1, 0); (2, 0)]%Z = [] → v = (1, 1)%Z ∧ h1 = [])
                   ∧ ((∀ a b : Z * Z, @ge _ by_priority a b → @ge _ by_priority b a
                                       → a = b) → v = v' ∧ h1 ≡ₚ h2)).
Proof.
  split_and!.
  - apply (@heappushpop_push_pop_ties Z Z_ordered Z_weak).
    apply is_max_heapb_spec. reflexivity.
  - apply (@heappushpop_push_pop_ties Z Z_ordered Z_weak).
    apply is_max_heapb_spec. reflexivity.
  - apply (@heappushpop_push_pop_ties (Z * Z) by_priority by_priority_weak).
    apply (@is_max_heapb_spec _ by_priority). reflexivity.
Defined.

(** C8.  [heappop] and [heapreplace] raise [IndexError] on the empty list
    and leave it as it was; the error is the one of the list primitive
    they start with ([pop], resp. reading index 0), and on a non-empty
    list both return the element at index 0. *)
Theorem empty_heap_index_error {A : Type} `{Ordered A} (item x : A) (t : list A) :
  heappop ([] : list A) = Raise IndexError []
  ∧ heappop ([] : list A) = (pop ;;; ret x) []
  ∧ heapreplace item ([] : list A) = Raise IndexError []
  ∧ heapreplace item ([] : list A) = (getitem 0 ;;; ret x) []
  ∧ (∃ h', heappop (x :: t) = Ok x h')
  ∧ (∃ h', heapreplace item (x :: t) = Ok x h').
Proof.
  split_and!; [apply heappop_nil|by rewrite heappop_nil|apply heapreplace_nil
              |by rewrite heapreplace_nil| |].
  - destruct (heappop_runs x t) as (h' & Hrun & _). by exists h'.
  - destruct (heapreplace_runs item x t) as (h' & Hrun & _). by exists h'.
Qed.

(** C9.  For every list and every position inside it, [_siftup] and
    [_siftdown] return without reading or writing outside the list, and
    leave its length unchanged; [heappush] returns on every list, heap or
    not, and makes it one longer. *)
Theorem sift_in_bounds {A : Type} `{Ordered A} (h : list A) :
  (∀ pos, pos < length h →
     (∃ h', _siftup pos h = Ok tt h' ∧ length h' = length h)
     ∧ (∃ h', _siftdown pos h = Ok tt h' ∧ length h' = length h))
  ∧ (∀ item, ∃ h', heappush item h = Ok tt h' ∧ length h' = S (length h)).
Proof.
  split.
  - intros pos Hpos. split.
    + destruct (_siftup_runs pos h Hpos) as (h' & ? & ? & _). by exists h'.
    + destruct (_siftdown_runs pos h Hpos) as (h' & ? & ? & _). by exists h'.
  - intros item. destruct (heappush_runs item h) as (h' & ? & ? & _). by exists h'.
Qed.

Lemma sift_in_bounds_witness :
  (∃ h', _siftup 4 [3; 1; 2; 0; 8]%Z = Ok tt h' ∧ length h' = 5)
  ∧ (∃ h', _siftdown 0 [3; 1; 2; 0; 8]%Z = Ok tt h' ∧ length h' = 5).
Proof.
  split.
  - apply (proj1 (proj1 (@sift_in_bounds Z Z_ordered [3; 1; 2; 0; 8]%Z) 4
                    ltac:(simpl; lia))).
  - apply (proj2 (proj1 (@sift_in_bounds Z Z_ordered [3; 1; 2; 0; 8]%Z) 0
                    ltac:(simpl; lia))).
Defined.

Section MergeTraces.
Context {K V : Type} `{TotalOrder K} `{!PyEq K} `{!EqDecides K}.
Variable key : V → K.

Lemma events_values_sorted (evs : list (V * nat)) :
  StronglySorted (ev_ge key) evs → descending_by key (map fst evs).
Proof.
  unfold descending_by.
  induction 1 as [|e l Hs IH Hall]; simpl; constructor; [done|].
  rewrite Forall_map. eapply Forall_impl; [exact Hall|].
  intros e' He. unfold key_ge. simpl. by eapply lex_ltb_key_ge.
Qed.

End MergeTraces.

Lemma concat_all_nil {V} (its : list (list V)) :
  Forall (fun it => it = []) its → concat its = [].
Proof. induction 1 as [|it rest -> _ IH]; [done|]. by simpl. Qed.

Lemma collect_Ok {S V} (m : M (list S) (list (V * nat))) evs h :
  m [] = Ok evs h → collect m = Yields (map fst evs).
Proof. unfold collect. by intros ->. Qed.

(** C2.  Without a key, on inputs that are each descending, [merge]
    returns, yields exactly the items of all the inputs and yields them in
    descending order; the inputs [6,5,3,2,2,1], [9,7,4,3,1] and [10] give
    [10,9,7,6,5,4,3,3,2,2,1,1], and inputs that are all empty give
    nothing. *)
Theorem merge_descending_inputs :
  (∀ (V : Type) (O : Ordered V) (T : TotalOrder V) (E : PyEq V)
     (D : EqDecides V) (iterables : list (list V)) (reverse : bool),
     Forall descending iterables →
     ∃ out, merge (K:=V) iterables None reverse = Yields out
            ∧ out ≡ₚ concat iterables ∧ descending out
            ∧ (Forall (fun it => it = []) iterables → out = []))
  ∧ merge (K:=Z) [[6; 5; 3; 2; 2; 1]; [9; 7; 4; 3; 1]; [10]]%Z None false
    = Yields [10; 9; 7; 6; 5; 4; 3; 3; 2; 2; 1; 1]%Z
  ∧ merge (K:=Z) [[]; []; ([] : list Z)] None false = Yields [].
Proof.
  split_and!; [|reflexivity..].
  intros V O T E D iterables reverse Hs.
  destruct (merge_nokey_events_runs iterables) as (evs & h' & Hrun & Hp).
  exists (map fst evs). unfold merge, merge_nokey.
  assert (Hout : map fst evs ≡ₚ concat iterables).
  { by rewrite Hp, tagged_values. }
  split_and!; [by eapply collect_Ok|done| |].
  - apply (events_values_sorted own_key).
    by eapply merge_nokey_events_sorted.
  - intros Hnil. rewrite (concat_all_nil _ Hnil) in Hout.
    by apply Permutation_nil_r in Hout.
Qed.

Lemma merge_descending_inputs_witness :
  ∃ out, merge (K:=Z) [[5; 5; 1]; []; [7; 5; -2]; [6]]%Z None false = Yields out
         ∧ out ≡ₚ concat [[5; 5; 1]; []; [7; 5; -2]; [6]]%Z ∧ descending out
         ∧ (Forall (fun it => it = []) [[5; 5; 1]; []; [7; 5; -2]; [6]]%Z
            → out = []).
Proof.
  apply (proj1 merge_descending_inputs Z Z_ordered Z_total Z_pyeq Z_eq_decides).
  apply all_descendingb_spec. reflexivity.
Defined.

(** C6.  With the length of a string as key, the inputs ["horse","dog"]
    and ["kangaroo","fish","cat"] are merged into
    ["kangaroo","horse","fish","cat","dog"]. *)
Theorem merge_key_length_example :
  merge [["horse"%string; "dog"%string];
         ["kangaroo"%string; "fish"%string; "cat"%string]]
    (Some String.length) false
  = Yields ["kangaroo"%string; "horse"%string; "fish"%string; "cat"%string;
            "dog"%string].
Proof. reflexivity. Qed.

(** C10.  On every finite collection of finite inputs, descending or not,
    [merge] returns, with a key and without, and what it yields is a
    permutation of the items of all the inputs: each item is yielded
    once. *)
Theorem merge_conserves_items {K V : Type} `{Ordered V} `{PyEq V}
  `{Ordered K} `{PyEq K} (iterables : list (list V)) (key : option (V → K))
  (reverse : bool) :
  ∃ out, merge iterables key reverse = Yields out ∧ out ≡ₚ concat iterables.
Proof.
  destruct key as [key|]; simpl.
  - destruct (merge_key_events_runs key iterables) as (evs & h' & Hrun & Hp).
    exists (map fst evs). split; [by eapply collect_Ok|].
    by rewrite Hp, tagged_values.
  - destruct (merge_nokey_events_runs iterables) as (evs & h' & Hrun & Hp).
    exists (map fst evs). split; [by eapply collect_Ok|].
    by rewrite Hp, tagged_values.
Qed.




(** * Further properties of the heap primitives *)

Section SiftMore.
Context {A : Type} `{Ordered A}.
Implicit Types (h : list A) (x : A).

Lemma _siftup_outside pos h :
  length h ≤ pos → _siftup pos h = Raise IndexError h.
Proof.
  intros Hp. unfold _siftup.
  by rewrite (bind_Raise _ _ _ _ _ (getitem_None _ _ Hp)).
Qed.

(** Where the entry at [pos] is not below its children, [_siftdown]
    stops at once and writes back what it read. *)
Lemma _siftdown_fixed pos h :
  pos < length h →
  (∀ c x y, child_of c pos → h !! pos = Some x → h !! c = Some y → ge x y) →
  _siftdown pos h = Ok tt h.
Proof.
  intros Hp Hat. destruct (lookup_lt_Some_ex h pos Hp) as [cur Hcur].
  unfold _siftdown. rewrite (bind_Ok _ _ _ _ _ (getitem_Some _ _ _ Hcur)).
  unfold bind at 1. unfold len at 1.
  destruct (length h) as [|fuel] eqn:Hlen; [lia|].
  assert (Hloop : siftdown_loop (S fuel) cur pos (2 * pos + 1) h = Ok pos h).
  { destruct (Nat.le_gt_cases (length h) (2 * pos + 1)) as [Hout|Hin].
    - by apply siftdown_loop_exit.
    - destruct (pick_child_range h _ Hin) as [Hr1 Hr2].
      destruct (lookup_lt_Some_ex h _ Hr2) as [m Hm].
      rewrite (siftdown_loop_step _ _ _ _ _ m) by (done || lia).
      assert (Hge : ge cur m).
      { eapply (Hat (pick_child h (2 * pos + 1))); [|done..].
        unfold child_of. lia. }
      unfold ge in Hge. by rewrite Hge. }
  rewrite (bind_Ok _ _ _ _ _ Hloop), setitem_lt by lia.
  by rewrite list_insert_id.
Qed.

Lemma heapify_loop_fixed k h :
  k ≤ length h → heap_from 0 h → heapify_loop k h = Ok tt h.
Proof.
  intros Hk Hh. induction k as [|k IH]; [done|].
  cbn [heapify_loop].
  rewrite (bind_Ok _ _ _ tt h); [apply IH; lia|].
  apply _siftdown_fixed; [lia|].
  intros c x y Hc. apply (Hh k c). lia. done.
Qed.

Lemma siftdown_loop_below fuel cur pos child h pos' h' :
  siftdown_loop fuel cur pos child h = Ok pos' h' →
  pos < child → pos < length h →
  pos ≤ pos' ∧ ∀ j, j < pos → h' !! j = h !! j.
Proof.
  revert pos child h. induction fuel as [|fuel IH];
    intros pos child h Hrun Hc Hp; [done|].
  destruct (Nat.le_gt_cases (length h) child) as [Hout|Hin].
  { rewrite siftdown_loop_exit in Hrun by done. by injection Hrun as <- <-. }
  destruct (pick_child_range h child Hin) as [Hr1 Hr2].
  destruct (lookup_lt_Some_ex h _ Hr2) as [m Hm].
  rewrite (siftdown_loop_step _ _ _ _ _ m) in Hrun by done.
  destruct (ltb cur m); [|by injection Hrun as <- <-].
  apply IH in Hrun as [Hle Hsame]; [|lia|rewrite length_insert; lia].
  split; [lia|]. intros j Hj.
  rewrite Hsame by lia. by rewrite list_lookup_insert_ne by lia.
Qed.

Lemma siftup_loop_above fuel cur pos h pos' h' :
  siftup_loop fuel cur pos h = Ok pos' h' → pos < length h →
  pos' ≤ pos ∧ ∀ j, pos < j → h' !! j = h !! j.
Proof.
  revert pos h. induction fuel as [|fuel IH]; intros pos h Hrun Hp; [done|].
  destruct (decide (pos = 0)) as [->|Hpos].
  { rewrite siftup_loop_root in Hrun. by injection Hrun as <- <-. }
  pose proof (parent_child pos ltac:(lia)) as Hq.
  set (q := (pos - 1) / 2) in *.
  assert (Hqp : q < pos) by (destruct Hq; lia).
  destruct (lookup_lt_Some_ex h q) as [p Hpv]; [lia|].
  rewrite (siftup_loop_step _ _ _ _ p) in Hrun by (done || lia).
  fold q in Hrun.
  destruct (ltb p cur); [|by injection Hrun as <- <-].
  apply IH in Hrun as [Hle Hsame]; [|rewrite length_insert; lia].
  split; [lia|]. intros j Hj.
  rewrite Hsame by lia. by rewrite list_lookup_insert_ne by lia.
Qed.
End SiftMore.

(** X1.  Pushing an item on a list that satisfies the max-heap invariant
    returns and leaves a list one longer, made of the item and the
    elements that were there, that satisfies the invariant. *)
Theorem heappush_keeps_heap {A : Type} `{WeakOrder A} (item : A) (h : list A) :
  is_max_heap h →
  ∃ h', heappush item h = Ok tt h' ∧ length h' = S (length h)
        ∧ h' ≡ₚ item :: h ∧ is_max_heap h'.
Proof.
  intros Hh. destruct (heappush_runs item h) as (h' & Hrun & Hlen & Hperm).
  exists h'. split_and!; [done..|]. by eapply heappush_heap.
Qed.

Lemma heappush_keeps_heap_witness :
  ∃ h', heappush 100%Z [32; 6; 13; 4; 5; 9; 1; 3]%Z = Ok tt h'
        ∧ length h' = S (length [32; 6; 13; 4; 5; 9; 1; 3]%Z)
        ∧ h' ≡ₚ 100%Z :: [32; 6; 13; 4; 5; 9; 1; 3]%Z ∧ is_max_heap h'.
Proof.
  apply (@heappush_keeps_heap Z Z_ordered Z_weak).
  apply is_max_heapb_spec. reflexivity.
Defined.

(** X2.  After a push on a heap the root is the item when the item is
    above the old root (or the heap was empty), and the old root
    otherwise. *)
Theorem heappush_root {A : Type} `{TotalOrder A} (item : A) (h : list A) :
  is_max_heap h →
  ∃ h', heappush item h = Ok tt h'
        ∧ h' !! 0 = Some (match h !! 0 with
                          | Some root => if ltb root item then item else root
                          | None => item
                          end).
Proof.
  intros Hh. destruct (heappush_runs item h) as (h' & Hrun & Hlen & Hperm).
  pose proof (heappush_heap _ _ _ Hrun Hh) as Hh'.
  exists h'. split; [done|].
  destruct h' as [|r' t']; [done|]. simpl. f_equal.
  destruct h as [|r t]; simpl.
  - apply Permutation_singleton_r in Hperm. by injection Hperm as ->.
  - assert (Hr : ∀ x, x ∈ r :: t → ge r x)
      by (intros x; by apply heap_root_max_elem).
    destruct (ltb r item) eqn:Hri.
    + eapply heap_root_is; [done|exact Hperm|by left|].
      intros x [->|Hx]%elem_of_cons; [apply ge_refl|].
      eapply ge_trans; [by apply ltb_ge|by apply Hr].
    + eapply heap_root_is; [done|exact Hperm|by right; left|].
      intros x [->|Hx]%elem_of_cons; [exact Hri|by apply Hr].
Qed.

Lemma heappush_root_witness :
  ∃ h', heappush 100%Z [32; 6; 13; 4; 5; 9; 1; 3]%Z = Ok tt h'
        ∧ h' !! 0 = Some (match [32; 6; 13; 4; 5; 9; 1; 3]%Z !! 0 with
                          | Some root => if ltb root 100%Z then 100%Z else root
                          | None => 100%Z
                          end).
Proof.
  apply (@heappush_root Z Z_ordered Z_total).
  apply is_max_heapb_spec. reflexivity.
Defined.

(** X3.  On a non-empty heap [heapreplace] returns the root, which is not
    below any element, and leaves a heap of the same length in which the
    item has taken the place of the root; the item may be above what is
    returned. *)
Theorem heapreplace_on_heap {A : Type} `{WeakOrder A} (item : A) (h : list A) :
  is_max_heap h → h ≠ [] →
  ∃ x h', heapreplace item h = Ok x h'
          ∧ h !! 0 = Some x
          ∧ (∀ y, y ∈ h → ge x y)
          ∧ length h' = length h
          ∧ x :: h' ≡ₚ item :: h
          ∧ is_max_heap h'.
Proof.
  intros Hh Hne. destruct h as [|x t]; [done|].
  destruct (heapreplace_runs item x t) as (h' & Hrun & Hperm & Hlen).
  exists x, h'. split_and!; [done|done| |done| |].
  - intros y Hy. by apply (heap_root_max_elem x t).
  - by rewrite Hperm, perm_swap.
  - eapply heapreplace_heap; [exact Hrun|].
    eapply heap_from_mono; [|by apply is_max_heap_from]. lia.
Qed.

Lemma heapreplace_on_heap_witness :
  ∃ x h', heapreplace 10%Z [9; 7; 4; 6; 6; 2]%Z = Ok x h'
          ∧ [9; 7; 4; 6; 6; 2]%Z !! 0 = Some x
          ∧ (∀ y, y ∈ [9; 7; 4; 6; 6; 2]%Z → ge x y)
          ∧ length h' = length [9; 7; 4; 6; 6; 2]%Z
          ∧ x :: h' ≡ₚ 10%Z :: [9; 7; 4; 6; 6; 2]%Z
          ∧ is_max_heap h'.
Proof.
  apply (@heapreplace_on_heap Z Z_ordered Z_weak).
  - apply is_max_heapb_spec. reflexivity.
  - discriminate.
Defined.

(** X4.  On a non-empty heap [heapreplace] returns what [heappop] followed
    by [heappush] of the item returns from the pop, and both leave heaps
    with the same elements. *)
Theorem heapreplace_as_pop_push {A : Type} `{WeakOrder A} (item : A) (h : list A) :
  is_max_heap h → h ≠ [] →
  ∃ x h1 h2, heapreplace item h = Ok x h1
             ∧ (v <- heappop ;; heappush item ;;; ret v) h = Ok x h2
             ∧ h1 ≡ₚ h2 ∧ is_max_heap h1 ∧ is_max_heap h2.
Proof.
  intros Hh Hne. destruct h as [|x t]; [done|].
  destruct (heapreplace_runs item x t) as (h1 & Hrun & Hperm & _).
  destruct (heappop_runs x t) as (hp & Hpop & Hpp & _).
  destruct (heappush_runs item hp) as (h2 & Hpush & _ & Hp2).
  pose proof (heappop_heap _ _ _ Hpop Hh) as Hhp.
  exists x, h1, h2.
  rewrite (bind_Ok _ _ _ _ _ Hpop), (bind_Ok _ _ _ _ _ Hpush).
  split_and!; [done|done|by rewrite Hperm, Hp2, Hpp| |by eapply heappush_heap].
  eapply heapreplace_heap; [exact Hrun|].
  eapply heap_from_mono; [|by apply is_max_heap_from]. lia.
Qed.

Lemma heapreplace_as_pop_push_witness :
  ∃ x h1 h2, heapreplace 5%Z [9; 7; 4; 6; 6; 2]%Z = Ok x h1
             ∧ (v <- heappop ;; heappush 5%Z ;;; ret v) [9; 7; 4; 6; 6; 2]%Z
               = Ok x h2
             ∧ h1 ≡ₚ h2 ∧ is_max_heap h1 ∧ is_max_heap h2.
Proof.
  apply (@heapreplace_as_pop_push Z Z_ordered Z_weak).
  - apply is_max_heapb_spec. reflexivity.
  - discriminate.
Defined.

(** X5.  [heapify] leaves a list that already satisfies the max-heap
    invariant exactly as it is. *)
Theorem heapify_on_heap {A : Type} `{Ordered A} (h : list A) :
  is_max_heap h → heapify h = Ok tt h.
Proof.
  intros Hh. unfold heapify, bind, len. apply heapify_loop_fixed.
  - apply Nat.Div0.div_le_upper_bound. lia.
  - by apply is_max_heap_from.
Qed.

Lemma heapify_on_heap_witness :
  heapify [9; 7; 4; 6; 6; 2; 2; 1; 2; 1]%Z = Ok tt [9; 7; 4; 6; 6; 2; 2; 1; 2; 1]%Z.
Proof.
  apply (@heapify_on_heap Z Z_ordered).
  apply is_max_heapb_spec. reflexivity.
Defined.

(** X6.  On every list, heap or not, [heappushpop] returns, keeps the
    length, and what it returns together with what it leaves is the item
    together with what was there; unless the first element is above the
    item, the item comes back and the list is not touched. *)
Theorem heappushpop_conserves {A : Type} `{Ordered A} (item : A) (h : list A) :
  ∃ v h', heappushpop item h = Ok v h'
          ∧ length h' = length h
          ∧ v :: h' ≡ₚ item :: h
          ∧ (match h !! 0 with
             | Some root => ltb item root = false
             | None => True
             end → v = item ∧ h' = h).
Proof.
  destruct h as [|r t].
  { exists item, []. by rewrite heappushpop_nil. }
  rewrite heappushpop_cons. simpl.
  destruct (ltb item r) eqn:Hir; [|by exists item, (r :: t)].
  rewrite (bind_Ok _ _ _ _ _ (setitem_lt (r :: t) 0 item ltac:(simpl; lia))).
  cbn [insert list_insert].
  destruct (_siftdown_runs 0 (item :: t)) as (h1 & Hs & Hlen & Hp1);
    [simpl; lia|].
  rewrite (bind_Ok _ _ _ _ _ Hs). exists r, h1.
  split_and!; [done|done|by rewrite Hp1, perm_swap|done].
Qed.

(** X7.  On a heap [heappushpop] leaves a heap, and what it returns is
    not below the item nor below anything it leaves. *)
Theorem heappushpop_on_heap {A : Type} `{WeakOrder A} (item : A) (h : list A) :
  is_max_heap h →
  ∃ v h', heappushpop item h = Ok v h'
          ∧ is_max_heap h' ∧ ge v item ∧ (∀ y, y ∈ h' → ge v y).
Proof.
  intros Hh. destruct h as [|r t].
  { exists item, []. rewrite heappushpop_nil.
    split_and!; [done|done|apply ge_refl|]. intros y Hy. by apply elem_of_nil in Hy. }
  assert (Hr : ∀ x, x ∈ r :: t → ge r x)
    by (intros x; by apply heap_root_max_elem).
  rewrite heappushpop_cons. destruct (ltb item r) eqn:Hir.
  - rewrite (bind_Ok _ _ _ _ _ (setitem_lt (r :: t) 0 item ltac:(simpl; lia))).
    cbn [insert list_insert].
    destruct (_siftdown_runs 0 (item :: t)) as (h1 & Hs & Hlen & Hp1);
      [simpl; lia|].
    rewrite (bind_Ok _ _ _ _ _ Hs). exists r, h1.
    split_and!; [done| |by apply ltb_ge|].
    + apply is_max_heap_from. eapply _siftdown_heap; [exact Hs|].
      apply (heap_from_insert_root (r :: t) item).
      eapply heap_from_mono; [|by apply is_max_heap_from]. lia.
    + intros y Hy. rewrite Hp1 in Hy.
      apply elem_of_cons in Hy as [->|Hy]; [by apply ltb_ge|].
      apply Hr. by right.
  - exists item, (r :: t). split_and!; [done|done|apply ge_refl|].
    intros y Hy. eapply ge_trans; [exact Hir|by apply Hr].
Qed.

Lemma heappushpop_on_heap_witness :
  ∃ v h', heappushpop 5%Z [9; 7; 4; 6; 6; 2]%Z = Ok v h'
          ∧ is_max_heap h' ∧ ge v 5%Z ∧ (∀ y, y ∈ h' → ge v y).
Proof.
  apply (@heappushpop_on_heap Z Z_ordered Z_weak).
  apply is_max_heapb_spec. reflexivity.
Defined.

Lemma heappushpop_conserves_witness :
  ∃ v h', heappushpop 8%Z [3; 9; 1]%Z = Ok v h'
          ∧ length h' = length [3; 9; 1]%Z
          ∧ v :: h' ≡ₚ 8%Z :: [3; 9; 1]%Z
          ∧ (match [3; 9; 1]%Z !! 0 with
             | Some root => ltb 8%Z root = false
             | None => True
             end → v = 8%Z ∧ h' = [3; 9; 1]%Z).
Proof. exact (@heappushpop_conserves Z Z_ordered 8%Z [3; 9; 1]%Z). Defined.

(** X8.  Called at a position at or past the end of the list (positions
    count from 0: [len(heap) <= pos]), [_siftup] and [_siftdown] raise
    [IndexError] at their first read and leave the list as it was.
    Negative positions, which Python counts from the end of the list, are
    not positions of this model and the statement says nothing of them. *)
Theorem sift_outside_raises {A : Type} `{Ordered A} (pos : nat) (h : list A) :
  length h ≤ pos →
  _siftup pos h = Raise IndexError h ∧ _siftdown pos h = Raise IndexError h.
Proof.
  intros Hp. split; [by apply _siftup_outside|by apply _siftdown_outside].
Qed.

Lemma sift_outside_raises_witness :
  _siftup 3 [5; 1; 4]%Z = Raise IndexError [5; 1; 4]%Z
  ∧ _siftdown 3 [5; 1; 4]%Z = Raise IndexError [5; 1; 4]%Z.
Proof. apply (@sift_outside_raises Z Z_ordered). simpl. lia. Defined.

(** X9.  [_siftdown] at [pos] does not change the entries before [pos],
    and [_siftup] at [pos] does not change the entries after [pos]. *)
Theorem sift_untouched {A : Type} `{Ordered A} (pos : nat) (h : list A) :
  pos < length h →
  (∃ h', _siftdown pos h = Ok tt h' ∧ ∀ j, j < pos → h' !! j = h !! j)
  ∧ (∃ h', _siftup pos h = Ok tt h' ∧ ∀ j, pos < j → h' !! j = h !! j).
Proof.
  intros Hp. destruct (lookup_lt_Some_ex h pos Hp) as [cur Hcur]. split.
  - unfold _siftdown. rewrite (bind_Ok _ _ _ _ _ (getitem_Some _ _ _ Hcur)).
    unfold bind at 1. unfold len at 1.
    destruct (siftdown_loop_runs (length h) cur pos (2 * pos + 1) h)
      as (pos' & h1 & Hloop & Hlt & _ & _); [lia..|].
    rewrite (bind_Ok _ _ _ _ _ Hloop), setitem_lt by done.
    eexists; split; [done|]. intros j Hj.
    destruct (siftdown_loop_below _ _ _ _ _ _ _ Hloop) as [Hle Hsame]; [lia..|].
    rewrite list_lookup_insert_ne by lia. by apply Hsame.
  - unfold _siftup. rewrite (bind_Ok _ _ _ _ _ (getitem_Some _ _ _ Hcur)).
    unfold bind at 1. unfold len at 1.
    destruct (siftup_loop_runs (length h) cur pos h)
      as (pos' & h1 & Hloop & Hlt & _ & _); [lia..|].
    rewrite (bind_Ok _ _ _ _ _ Hloop), setitem_lt by done.
    eexists; split; [done|]. intros j Hj.
    destruct (siftup_loop_above _ _ _ _ _ _ Hloop) as [Hle Hsame]; [lia|].
    rewrite list_lookup_insert_ne by lia. by apply Hsame.
Qed.

Lemma sift_untouched_witness :
  (∃ h', _siftdown 1 [9; 1; 4; 6; 5]%Z = Ok tt h'
         ∧ ∀ j, j < 1 → h' !! j = [9; 1; 4; 6; 5]%Z !! j)
  ∧ (∃ h', _siftup 1 [9; 1; 4; 6; 5]%Z = Ok tt h'
           ∧ ∀ j, 1 < j → h' !! j = [9; 1; 4; 6; 5]%Z !! j).
Proof. apply (@sift_untouched Z Z_ordered). simpl. lia. Defined.

(** X10.  When the invariant holds at every parent after [pos],
    [_siftdown] at [pos] returns a permutation of the list in which it
    holds at every parent from [pos] on. *)
Theorem siftdown_restores {A : Type} `{WeakOrder A} (pos : nat) (h : list A) :
  pos < length h → heap_from (S pos) h →
  ∃ h', _siftdown pos h = Ok tt h' ∧ h' ≡ₚ h ∧ heap_from pos h'.
Proof.
  intros Hp Hh. destruct (_siftdown_runs pos h Hp) as (h' & Hrun & _ & Hperm).
  exists h'. split_and!; [done..|]. by eapply _siftdown_heap.
Qed.

Lemma heap_fromb_spec {A} `{Ordered A} (k : nat) (h : list A) :
  heap_fromb k h = true → heap_from k h.
Proof.
  unfold heap_fromb. rewrite forallb_forall. intros Hb i c x y Hi Hc Hx Hy.
  assert (Hin : In i (seq k (length h - k))).
  { apply in_seq. apply lookup_lt_Some in Hx. lia. }
  specialize (Hb i Hin). unfold heap_okb in Hb. rewrite Hx in Hb.
  apply andb_true_iff in Hb as [H1 H2].
  destruct Hc as [->| ->]; [rewrite Hy in H1|rewrite Hy in H2];
    unfold geb in *; unfold ge; by destruct (ltb x y).
Qed.

Lemma siftdown_restores_witness :
  ∃ h', _siftdown 0 [2; 9; 7; 4; 6]%Z = Ok tt h'
        ∧ h' ≡ₚ [2; 9; 7; 4; 6]%Z ∧ heap_from 0 h'.
Proof.
  apply (@siftdown_restores Z Z_ordered Z_weak).
  - simpl. lia.
  - apply heap_fromb_spec. reflexivity.
Defined.


(** * Further properties of merge *)

Lemma lane_app {V} o (l1 l2 : list (V * nat)) :
  lane o (l1 ++ l2) = lane o l1 ++ lane o l2.
Proof. unfold lane. by rewrite filter_app, map_app. Qed.

Lemma lane_tag_same {V} o (l : list V) : lane o (map (fun v => (v, o)) l) = l.
Proof.
  unfold lane. induction l as [|v l IH]; [done|]. simpl.
  rewrite filter_cons_True by done. simpl. by rewrite IH.
Qed.

Lemma lane_tag_other {V} o o' (l : list V) :
  o' ≠ o → lane o (map (fun v => (v, o')) l) = [].
Proof.
  intros Hne. unfold lane. induction l as [|v l IH]; [done|]. simpl.
  by rewrite filter_cons_False by done.
Qed.

Lemma lane_tagged {V} o k (iterables : list (list V)) :
  lane o (tagged k iterables)
  = if decide (k ≤ o) then from_option id [] (iterables !! (o - k)) else [].
Proof.
  revert k. induction iterables as [|it rest IH]; intros k; simpl.
  { by destruct (decide (k ≤ o)). }
  rewrite lane_app, IH. destruct (decide (k = o)) as [->|Hne].
  - rewrite lane_tag_same, Nat.sub_diag. simpl.
    repeat case_decide; try lia. by rewrite app_nil_r.
  - rewrite lane_tag_other by done. simpl.
    repeat case_decide; try lia; [|done].
    by replace (o - k) with (S (o - S k)) by lia.
Qed.

Lemma perm_short_eq {X} (l l' : list X) : l ≡ₚ l' → length l ≤ 1 → l = l'.
Proof.
  intros Hp Hlen. destruct l as [|a [|b l]]; [| |simpl in Hlen; lia].
  - by apply Permutation_nil_l in Hp.
  - by apply Permutation_singleton_l in Hp.
Qed.

Section MergeLanes.
Context {V Rec : Type} `{Ordered Rec}.
Variable current : Rec → V.
Variable order_of : Rec → nat.
Variable cursor : Rec → list V.
Variable advance : Rec → V → list V → Rec.
Hypothesis current_advance : ∀ s v more, current (advance s v more) = v.
Hypothesis order_advance : ∀ s v more, order_of (advance s v more) = order_of s.
Hypothesis cursor_advance : ∀ s v more, cursor (advance s v more) = more.
Implicit Types (h t : list Rec) (s r : Rec).

Local Notation "'serve'" := (serve_loop current order_of cursor advance).
Local Notation "'rounds'" := (merge_loop current order_of cursor advance).
Local Notation "'drain'" := (drain_last current order_of cursor).
Local Notation "'tail'" := (merge_tail current order_of cursor advance).
Local Notation "'pend'" := (pending current order_of cursor).
Local Notation "'evs_of'" := (events_of current order_of cursor).

Lemma lane_events_of o r :
  lane o (evs_of r) = if decide (order_of r = o) then current r :: cursor r else [].
Proof.
  unfold events_of.
  change ((current r, order_of r) :: map (fun v => (v, order_of r)) (cursor r))
    with (map (fun v => (v, order_of r)) (current r :: cursor r)).
  destruct (decide (order_of r = o)) as [<-|Hne].
  - apply lane_tag_same.
  - by apply lane_tag_other.
Qed.

Lemma lane_pending o h :
  lane o (pend h)
  = filter (fun r => order_of r = o) h ≫= (fun r => current r :: cursor r).
Proof.
  induction h as [|r t IH]; [done|].
  rewrite pending_cons, lane_app, lane_events_of, IH.
  destruct (decide (order_of r = o)) as [Ho|Ho].
  - by rewrite filter_cons_True by done.
  - by rewrite filter_cons_False by done.
Qed.

Lemma order_lane_short o h :
  NoDup (order_of <$> h) → length (filter (fun r => order_of r = o) h) ≤ 1.
Proof.
  induction h as [|r t IH]; [simpl; lia|].
  rewrite fmap_cons, NoDup_cons. intros [Hnin Hnd].
  destruct (decide (order_of r = o)) as [Ho|Ho].
  - rewrite filter_cons_True by done.
    assert (Hempty : filter (fun r => order_of r = o) t = []).
    { destruct (filter _ t) as [|r' ?] eqn:Hf; [done|].
      assert (Hr' : r' ∈ filter (fun r => order_of r = o) t)
        by (rewrite Hf; by left).
      apply list_elem_of_filter in Hr' as [Ho' Hin]. destruct Hnin.
      rewrite Ho, <- Ho'. by apply list_elem_of_fmap_2. }
    by rewrite Hempty.
  - rewrite filter_cons_False by done. by apply IH.
Qed.

Lemma lane_pending_perm o h h' :
  h ≡ₚ h' → NoDup (order_of <$> h) → lane o (pend h) = lane o (pend h').
Proof.
  intros Hp Hnd. rewrite !lane_pending. f_equal.
  apply perm_short_eq; [by rewrite Hp|by apply order_lane_short].
Qed.

Lemma serve_loop_lane fuel h out h1 :
  serve fuel h = Ok out h1 → NoDup (order_of <$> h) →
  ∃ r t, h1 = r :: t ∧ NoDup (order_of <$> h1)
         ∧ ∀ o, lane o (pend h) = lane o out ++ lane o (pend t).
Proof.
  revert h out h1. induction fuel as [|fuel IH]; intros h out h1 Hrun Hnd;
    [done|].
  destruct h as [|s t]; [done|].
  destruct (cursor s) as [|v more] eqn:Hc.
  - rewrite serve_loop_done in Hrun by done. injection Hrun as <- <-.
    exists s, t. split_and!; [done..|]. intros o.
    rewrite pending_cons, lane_app. unfold events_of. by rewrite Hc.
  - rewrite (serve_loop_step current order_of cursor advance fuel s t v more Hc)
      in Hrun.
    set (s' := advance s v more) in *.
    destruct (heapreplace_runs s' s' t) as (h' & Hrep & Hperm & Hlen).
    rewrite (bind_Ok _ _ _ _ _ Hrep) in Hrun. unfold bind in Hrun.
    destruct (serve fuel h') as [out' h1'| |] eqn:Hrest; [|done..].
    injection Hrun as <- <-.
    assert (Hnd' : NoDup (order_of <$> s' :: t)).
    { rewrite fmap_cons. unfold s'. by rewrite order_advance. }
    destruct (IH h' out' h1' Hrest) as (r & t1 & -> & Hnd1 & Hlane).
    { by rewrite Hperm. }
    exists r, t1. split_and!; [done..|]. intros o.
    rewrite (pending_advance _ _ _ _ current_advance order_advance
               cursor_advance s v more t Hc).
    fold s'. change ((current s, order_of s) :: pend (s' :: t))
      with ([(current s, order_of s)] ++ pend (s' :: t)).
    change ((current s, order_of s) :: out')
      with ([(current s, order_of s)] ++ out').
    rewrite !lane_app, <- (assoc_L (++)). f_equal.
    rewrite <- Hlane. symmetry. apply lane_pending_perm; [done|].
    by rewrite Hperm.
Qed.

Lemma merge_loop_lane fuel h out h' :
  rounds fuel h = Ok out h' → NoDup (order_of <$> h) →
  length h' ≤ 1 ∧ ∀ o, lane o (pend h) = lane o out ++ lane o (pend h').
Proof.
  revert h out h'. induction fuel as [|fuel IH]; intros h out h' Hrun Hnd;
    [done|].
  cbn [merge_loop] in Hrun. unfold bind at 1 in Hrun. unfold len at 1 in Hrun.
  destruct (Nat.ltb_spec 1 (length h)) as [Hn|Hn].
  2:{ by injection Hrun as <- <-. }
  unfold bind at 1 in Hrun.
  destruct (serve fuel h) as [out1 h1| |] eqn:Hserve; [|done..].
  destruct (serve_loop_lane _ _ _ _ Hserve Hnd) as (r & t & -> & Hnd1 & Hlane).
  destruct (heappop_runs r t) as (h2 & Hpop & Hperm & _).
  rewrite (bind_Ok _ _ _ _ _ Hpop) in Hrun. unfold bind in Hrun.
  destruct (rounds fuel h2) as [rest h3| |] eqn:Hrest; [|done..].
  injection Hrun as <- <-.
  rewrite fmap_cons, NoDup_cons in Hnd1. destruct Hnd1 as [_ Hndt].
  destruct (IH h2 rest h3 Hrest) as [Hlen Hlane2].
  { by rewrite Hperm. }
  split; [done|]. intros o.
  rewrite Hlane, lane_app, <- (assoc_L (++)). f_equal.
  rewrite <- Hlane2. apply lane_pending_perm; [done|done].
Qed.

Lemma merge_tail_lane fuel h out h' o :
  tail fuel h = Ok out h' → NoDup (order_of <$> h) →
  lane o out = lane o (pend h).
Proof.
  intros Hrun Hnd. unfold merge_tail in Hrun. unfold bind at 1 in Hrun.
  destruct (rounds fuel h) as [out1 h1| |] eqn:Hloop; [|done..].
  destruct (merge_loop_lane _ _ _ _ Hloop Hnd) as [Hlen Hlane].
  rewrite (bind_Ok _ _ _ _ _ (drain_last_runs current order_of cursor h1 Hlen))
    in Hrun.
  injection Hrun as <- <-. by rewrite lane_app, Hlane.
Qed.
End MergeLanes.

Section FillLanes.
Context {K V : Type} `{Ordered V} `{PyEq V} `{Ordered K} `{PyEq K}.
Variable key : V → K.

Lemma fill3_lane iterables k (h h' : list (rec3 V)) :
  fill3 k iterables h = Ok tt h' →
  NoDup (order3 <$> h) → Forall (fun r => order3 r < k) h →
  NoDup (order3 <$> h')
  ∧ ∀ o, lane o (pending3 h') = lane o (pending3 h) ++ lane o (tagged k iterables).
Proof.
  revert k h. induction iterables as [|it rest IH]; intros k h Hrun Hnd Hlt.
  { injection Hrun as <-. split; [done|]. intros o. by rewrite app_nil_r. }
  cbn [fill3 tagged] in *. unfold bind at 1 in Hrun.
  destruct it as [|v more].
  - unfold ret at 1 in Hrun.
    destruct (heapify_runs h) as (h1 & Hheap & _ & Hperm).
    rewrite (bind_Ok _ _ _ _ _ Hheap) in Hrun.
    destruct (IH (S k) h1 Hrun) as [Hnd' Hlane].
    { by rewrite Hperm. }
    { rewrite Hperm. eapply Forall_impl; [exact Hlt|]. simpl. lia. }
    split; [done|]. intros o. rewrite Hlane. simpl. f_equal.
    symmetry. by apply lane_pending_perm; [symmetry|].
  - unfold append at 1 in Hrun.
    destruct (heapify_runs (h ++ [(v, k, more)])) as (h1 & Hheap & _ & Hperm).
    rewrite (bind_Ok _ _ _ _ _ Hheap) in Hrun.
    assert (Hnd1 : NoDup (order3 <$> h ++ [(v, k, more)])).
    { rewrite fmap_app. apply NoDup_app. split_and!; [done| |].
      - intros o Ho ->%list_elem_of_singleton.
        apply list_elem_of_fmap in Ho as (r & Hor & Hr).
        rewrite Forall_forall in Hlt. specialize (Hlt r Hr).
        unfold order3 in *. simpl in *. lia.
      - apply NoDup_singleton. }
    destruct (IH (S k) h1 Hrun) as [Hnd' Hlane].
    { by rewrite Hperm. }
    { rewrite Hperm. apply Forall_app. split.
      - eapply Forall_impl; [exact Hlt|]. simpl. lia.
      - apply Forall_singleton. unfold order3. simpl. lia. }
    split; [done|]. intros o. rewrite Hlane, lane_app, (assoc_L (++)). f_equal.
    rewrite <- lane_app, <- pending3_snoc.
    symmetry. by apply lane_pending_perm; [symmetry|].
Qed.

Lemma fill4_orders iterables k (h h' : list (rec4 K V)) :
  fill4 key k iterables h = Ok tt h' →
  NoDup (order4 <$> h) → Forall (fun r => order4 r < k) h →
  NoDup (order4 <$> h').
Proof.
  revert k h. induction iterables as [|it rest IH]; intros k h Hrun Hnd Hlt.
  { by injection Hrun as <-. }
  cbn [fill4] in Hrun. unfold bind at 1 in Hrun.
  destruct it as [|v more].
  - unfold ret at 1 in Hrun. eapply (IH (S k)); [exact Hrun|done|].
    eapply Forall_impl; [exact Hlt|]. simpl. lia.
  - unfold append at 1 in Hrun. eapply (IH (S k)); [exact Hrun| |].
    + rewrite fmap_app. apply NoDup_app. split_and!; [done| |].
      * intros o Ho ->%list_elem_of_singleton.
        apply list_elem_of_fmap in Ho as (r & Hor & Hr).
        rewrite Forall_forall in Hlt. specialize (Hlt r Hr).
        unfold order4 in *. simpl in *. lia.
      * apply NoDup_singleton.
    + apply Forall_app. split.
      * eapply Forall_impl; [exact Hlt|]. simpl. lia.
      * apply Forall_singleton. unfold order4. simpl. lia.
Qed.

Lemma merge_nokey_events_lane iterables evs (h : list (rec3 V)) o :
  merge_nokey_events iterables [] = Ok evs h →
  lane o evs = from_option id [] (iterables !! o).
Proof.
  intros Hrun. unfold merge_nokey_events in Hrun.
  destruct (fill3_runs iterables 0 []) as (h0 & Hfill & _).
  rewrite (bind_Ok _ _ _ _ _ Hfill) in Hrun.
  destruct (fill3_lane _ _ _ _ Hfill) as [Hnd Hlane];
    [constructor|constructor|].
  rewrite (merge_tail_lane (V:=V) (Rec:=rec3 V) current3 order3 cursor3 advance3
             ltac:(done) ltac:(done) ltac:(done) _ _ _ _ o Hrun Hnd).
  fold (pending3 h0). rewrite Hlane, lane_tagged. simpl.
  by rewrite Nat.sub_0_r.
Qed.

Lemma merge_key_events_lane iterables evs (h : list (rec4 K V)) o :
  merge_key_events key iterables [] = Ok evs h →
  lane o evs = from_option id [] (iterables !! o).
Proof.
  intros Hrun. unfold merge_key_events in Hrun.
  destruct (fill4_runs key iterables 0 []) as (h0 & Hfill & Hp0).
  rewrite (bind_Ok _ _ _ _ _ Hfill) in Hrun.
  pose proof (fill4_orders _ _ _ _ Hfill ltac:(constructor) ltac:(constructor))
    as Hnd.
  destruct (heapify_runs h0) as (h1 & Hheap & _ & Hperm).
  rewrite (bind_Ok _ _ _ _ _ Hheap) in Hrun.
  rewrite (merge_tail_lane (V:=V) (Rec:=rec4 K V) current4 order4 cursor4
             (advance4 key) ltac:(done) ltac:(done) ltac:(done) _ _ _ _ o Hrun);
    [|by rewrite Hperm].
  rewrite (lane_pending_perm (V:=V) (Rec:=rec4 K V) current4 order4 cursor4
             o h1 h0 Hperm)
    by (by rewrite Hperm).
  change (pending4 h0 = tagged 0 iterables) in Hp0.
  fold (pending4 h0). rewrite Hp0, lane_tagged. simpl.
  by rewrite Nat.sub_0_r.
Qed.
End FillLanes.

(** X11.  Whatever the order of the items inside the inputs, with a key
    and without, the items that [merge] yields from one input come in the
    order they have in that input: [merge] interleaves its inputs and
    never reorders one of them.  Each yield is tagged with the index of
    the input it is an item of. *)
Theorem merge_keeps_input_order {K V : Type} `{Ordered V} `{PyEq V}
  `{Ordered K} `{PyEq K} (iterables : list (list V)) (key : V → K) (o : nat) :
  (∃ evs h, merge_nokey_events iterables [] = Ok evs h
            ∧ merge_nokey iterables = Yields (map fst evs)
            ∧ evs ≡ₚ tagged 0 iterables
            ∧ lane o evs = from_option id [] (iterables !! o))
  ∧ (∃ evs h, merge_key_events key iterables [] = Ok evs h
              ∧ merge_key key iterables = Yields (map fst evs)
              ∧ evs ≡ₚ tagged 0 iterables
              ∧ lane o evs = from_option id [] (iterables !! o)).
Proof.
  split.
  - destruct (merge_nokey_events_runs iterables) as (evs & h & Hrun & Hp).
    exists evs, h. split_and!; [done|by eapply collect_Ok|done|].
    by eapply merge_nokey_events_lane.
  - destruct (merge_key_events_runs key iterables) as (evs & h & Hrun & Hp).
    exists evs, h. split_and!; [done|by eapply collect_Ok|done|].
    by eapply merge_key_events_lane.
Qed.

(** X12.  Given one input, [merge] yields its items as they are, in their
    order, with a key and without: nothing is sorted. *)
Theorem merge_single_input {K V : Type} `{Ordered V} `{PyEq V}
  `{Ordered K} `{PyEq K} (it : list V) (key : option (V → K)) (reverse : bool) :
  merge [it] key reverse = Yields it.
Proof.
  assert (Hmap : ∀ (o : nat) (l : list V), map fst (map (fun v => (v, o)) l) = l).
  { intros o l. rewrite map_map. simpl. apply map_id. }
  destruct key as [key|]; destruct it as [|v more]; try reflexivity.
  - unfold merge, merge_key, collect, merge_key_events. simpl.
    unfold bind, append, heapify, len, ret. simpl. by rewrite Hmap.
  - unfold merge, merge_nokey, collect, merge_nokey_events. simpl.
    unfold bind, append, heapify, len, ret. simpl. by rewrite Hmap.
Qed.

(** X13.  With a key, on inputs that are each descending by key, [merge]
    returns, yields exactly the items of all the inputs, and yields them
    descending by key. *)
Theorem merge_key_descending_inputs {K V : Type} `{TotalOrder K} `{!PyEq K}
  `{!EqDecides K} (key : V → K) (iterables : list (list V)) :
  Forall (descending_by key) iterables →
  ∃ out, merge_key key iterables = Yields out
         ∧ out ≡ₚ concat iterables ∧ descending_by key out.
Proof.
  intros Hs.
  destruct (merge_key_events_runs key iterables) as (evs & h' & Hrun & Hp).
  exists (map fst evs). split_and!; [by eapply collect_Ok| |].
  - by rewrite Hp, tagged_values.
  - apply events_values_sorted. by eapply merge_key_events_sorted.
Qed.

Lemma merge_key_descending_inputs_witness :
  ∃ out, merge_key String.length
           [["horse"%string; "dog"%string; ""%string];
            ["kangaroo"%string; "fish"%string; "cat"%string]] = Yields out
         ∧ out ≡ₚ concat [["horse"%string; "dog"%string; ""%string];
                           ["kangaroo"%string; "fish"%string; "cat"%string]]
         ∧ descending_by String.length out.
Proof.
  apply (@merge_key_descending_inputs nat string nat_ordered nat_total nat_pyeq
           nat_eq_decides String.length).
  apply all_descendingb_spec. reflexivity.
Defined.

Section MergeFirst.
Context {K V Rec : Type} `{TotalOrder K} `{!PyEq K} `{!EqDecides K}.
Context `{Ordered Rec}.
Variable key : V → K.
Variable rkey : Rec → K.
Variable current : Rec → V.
Variable order_of : Rec → nat.
Variable cursor : Rec → list V.
Variable advance : Rec → V → list V → Rec.
Hypothesis rec_ltb : ∀ r r' : Rec,
  ltb r r' = lex_ltb (rkey r) (order_of r) (rkey r') (order_of r').
Implicit Types (h t : list Rec) (s r : Rec).

Local Notation "'serve'" := (serve_loop current order_of cursor advance).
Local Notation "'rounds'" := (merge_loop current order_of cursor advance).
Local Notation "'tail'" := (merge_tail current order_of cursor advance).

Lemma serve_loop_first fuel s t out h1 :
  serve fuel (s :: t) = Ok out h1 → head out = Some (current s, order_of s).
Proof.
  destruct fuel as [|fuel]; [done|].
  destruct (cursor s) as [|v more] eqn:Hc.
  - rewrite serve_loop_done by done. by intros [= <- <-].
  - rewrite (serve_loop_step current order_of cursor advance fuel s t v more Hc).
    unfold bind.
    destruct (heapreplace _ _) as [? h'| |]; [|done..].
    destruct (serve fuel h') as [out' ?| |]; [|done..].
    by intros [= <- <-].
Qed.

Lemma merge_tail_first fuel s t out h' :
  tail fuel (s :: t) = Ok out h' → head out = Some (current s, order_of s).
Proof.
  unfold merge_tail. unfold bind at 1.
  destruct fuel as [|fuel]; [done|].
  cbn [merge_loop]. unfold bind at 1. unfold len at 1.
  destruct (Nat.ltb_spec 1 (length (s :: t))) as [Hn|Hn].
  - unfold bind at 1.
    destruct (serve fuel (s :: t)) as [out1 h1| |] eqn:Hserve; [|done..].
    apply serve_loop_first in Hserve.
    unfold bind at 1. destruct (heappop h1) as [? h2| |]; [|done..].
    unfold bind at 1. destruct (rounds fuel h2) as [rest h3| |]; [|done..].
    unfold ret at 1. unfold bind.
    destruct (drain_last _ _ _ h3) as [last ?| |]; [|done..].
    intros [= <- <-]. destruct out1; [done|]. by simpl in *.
  - destruct t; [|simpl in Hn; lia]. unfold ret at 1.
    rewrite (bind_Ok _ _ _ _ _
               (drain_last_runs current order_of cursor [s] ltac:(simpl; lia))).
    by intros [= <- <-].
Qed.

Lemma merge_tail_first_max fuel h out h' e r :
  tail fuel h = Ok out h' → is_max_heap h →
  Forall (fun r => rkey r = key (current r)) h →
  head out = Some e → r ∈ h → ge (key e.1) (key (current r)).
Proof.
  intros Hrun Hh Hk He Hr. destruct h as [|s t]; [by apply elem_of_nil in Hr|].
  rewrite (merge_tail_first _ _ _ _ _ Hrun) in He. injection He as <-. simpl.
  assert (Hw : WeakOrder Rec).
  { split.
    - intros a b. rewrite !rec_ltb. apply lex_ltb_asym.
    - intros a b c. rewrite !rec_ltb. apply lex_ltb_negtrans. }
  pose proof (heap_root_max_elem s t r Hh Hr) as Hge.
  unfold ge in Hge. rewrite rec_ltb in Hge. apply lex_ltb_key_ge in Hge.
  rewrite Forall_forall in Hk.
  by rewrite <- (Hk s ltac:(by left)), <- (Hk r Hr).
Qed.
End MergeFirst.

Section FillHeads.
Context {K V : Type} `{Ordered K} `{PyEq K}.
Variable key : V → K.

Lemma fill4_heads iterables k (h h' : list (rec4 K V)) :
  fill4 key k iterables h = Ok tt h' →
  Forall (fun r => rkey4 r = key (current4 r)) h →
  Forall (fun r => rkey4 r = key (current4 r)) h'
  ∧ current4 <$> h' = (current4 <$> h) ++ omap head iterables.
Proof.
  revert k h. induction iterables as [|it rest IH]; intros k h Hrun Hk.
  { injection Hrun as <-. by rewrite app_nil_r. }
  cbn [fill4] in Hrun. unfold bind at 1 in Hrun.
  destruct it as [|v more].
  - unfold ret at 1 in Hrun. by apply (IH (S k)).
  - unfold append at 1 in Hrun.
    destruct (IH (S k) _ Hrun) as [Hk' Hcur].
    { apply Forall_app. split; [done|]. by apply Forall_singleton. }
    split; [done|]. rewrite Hcur, fmap_app. simpl. by rewrite <- (assoc_L (++)).
Qed.

Lemma fill3_heads iterables k (h h' : list (rec3 K)) :
  fill3 k iterables h = Ok tt h' →
  current3 <$> h' ≡ₚ (current3 <$> h) ++ omap head iterables.
Proof.
  revert k h. induction iterables as [|it rest IH]; intros k h Hrun.
  { injection Hrun as <-. by rewrite app_nil_r. }
  cbn [fill3] in Hrun. unfold bind at 1 in Hrun.
  destruct it as [|v more].
  - unfold ret at 1 in Hrun.
    destruct (heapify_runs h) as (h1 & Hheap & _ & Hperm).
    rewrite (bind_Ok _ _ _ _ _ Hheap) in Hrun.
    rewrite (IH (S k) _ Hrun). simpl. by rewrite Hperm.
  - unfold append at 1 in Hrun.
    destruct (heapify_runs (h ++ [(v, k, more)])) as (h1 & Hheap & _ & Hperm).
    rewrite (bind_Ok _ _ _ _ _ Hheap) in Hrun.
    rewrite (IH (S k) _ Hrun), Hperm, fmap_app. simpl.
    by rewrite <- (assoc_L (++)).
Qed.
End FillHeads.

Lemma fill3_heap {K : Type} `{TotalOrder K} `{!PyEq K} `{!EqDecides K}
  iterables k (h h' : list (rec3 K)) :
  fill3 k iterables h = Ok tt h' → is_max_heap h → is_max_heap h'.
Proof.
  revert k h. induction iterables as [|it rest IH]; intros k h Hrun Hh.
  { by injection Hrun as <-. }
  cbn [fill3] in Hrun. unfold bind at 1 in Hrun.
  destruct it as [|v more].
  - unfold ret at 1 in Hrun.
    destruct (heapify_runs h) as (h1 & Hheap & _ & _).
    rewrite (bind_Ok _ _ _ _ _ Hheap) in Hrun.
    eapply IH; [exact Hrun|by eapply heapify_heap].
  - unfold append at 1 in Hrun.
    destruct (heapify_runs (h ++ [(v, k, more)])) as (h1 & Hheap & _ & _).
    rewrite (bind_Ok _ _ _ _ _ Hheap) in Hrun.
    eapply IH; [exact Hrun|by eapply heapify_heap].
Qed.

(** X14.  On any inputs, descending or not, the first item that [merge]
    yields has a key that is not below the key of the first item of any
    input (without a key: is not below the first item of any input). *)
Theorem merge_first_yield {K V : Type} `{TotalOrder K} `{!PyEq K}
  `{!EqDecides K} (key : V → K)
  (keyed : list (list V)) (plain : list (list K)) :
  (∃ out, merge_key key keyed = Yields out
          ∧ ∀ first x, head out = Some first → x ∈ omap head keyed →
              ge (key first) (key x))
  ∧ (∃ out, merge_nokey plain = Yields out
            ∧ ∀ first x, head out = Some first → x ∈ omap head plain →
                ge first x).
Proof.
  split.
  - destruct (merge_key_events_runs key keyed) as (evs & h' & Hrun & _).
    exists (map fst evs). split; [by eapply collect_Ok|].
    intros first x Hfirst Hx. unfold merge_key_events in Hrun.
    destruct (fill4_runs key keyed 0 []) as (h0 & Hfill & _).
    rewrite (bind_Ok _ _ _ _ _ Hfill) in Hrun.
    destruct (fill4_heads key _ _ _ _ Hfill ltac:(constructor)) as [Hk Hcur].
    destruct (heapify_runs h0) as (h1 & Hheap & _ & Hperm).
    rewrite (bind_Ok _ _ _ _ _ Hheap) in Hrun.
    simpl in Hcur. rewrite <- Hcur, <- Hperm in Hx.
    apply list_elem_of_fmap in Hx as (r & -> & Hr).
    destruct evs as [|e evs]; [done|]. injection Hfirst as <-.
    eapply (merge_tail_first_max key rkey4 current4 order4 cursor4 (advance4 key));
      [apply rec4_ltb|exact Hrun|by eapply heapify_heap|by rewrite Hperm
      |done|done].
  - destruct (merge_nokey_events_runs plain) as (evs & h' & Hrun & _).
    exists (map fst evs). split; [by eapply collect_Ok|].
    intros first x Hfirst Hx. unfold merge_nokey_events in Hrun.
    destruct (fill3_runs plain 0 []) as (h0 & Hfill & _).
    rewrite (bind_Ok _ _ _ _ _ Hfill) in Hrun.
    pose proof (fill3_heads _ _ _ _ Hfill) as Hcur. simpl in Hcur.
    rewrite <- Hcur in Hx.
    apply list_elem_of_fmap in Hx as (r & -> & Hr).
    destruct evs as [|e evs]; [done|]. injection Hfirst as <-.
    eapply (merge_tail_first_max own_key current3 current3 order3 cursor3 advance3);
      [apply rec3_ltb|exact Hrun| | |done|done].
    + eapply fill3_heap; [exact Hfill|apply is_max_heap_nil].
    + by apply Forall_forall.
Qed.

Lemma merge_first_yield_witness :
  (∃ out, merge_key String.length
            [["ab"%string; "abcd"%string]; ["abc"%string; "a"%string]]
          = Yields out
          ∧ ∀ first x, head out = Some first →
              x ∈ omap head [["ab"%string; "abcd"%string];
                             ["abc"%string; "a"%string]] →
              ge (String.length first) (String.length x))
  ∧ (∃ out, merge_nokey [[1; 9]; [2; 0]] = Yields out
            ∧ ∀ first x, head out = Some first → x ∈ omap head [[1; 9]; [2; 0]] →
                ge first x).
Proof.
  exact (@merge_first_yield nat string nat_ordered nat_total nat_pyeq
           nat_eq_decides String.length
           [["ab"%string; "abcd"%string]; ["abc"%string; "a"%string]]
           [[1; 9]; [2; 0]]).
Defined.

(** X15.  Whatever [<] answers, and whether the list is a heap or not,
    the heap operations only rearrange: [heapify] leaves a permutation of
    the list, [heappush] a permutation of the list with the item,
    [heappop] returns the first element and leaves a permutation of the
    others, and [heapreplace] returns the first element and leaves a
    permutation of the others with the item. *)
Theorem heap_operations_conserve {A : Type} `{Ordered A} (item x : A) (t : list A) :
  (∃ h', heapify t = Ok tt h' ∧ h' ≡ₚ t)
  ∧ (∃ h', heappush item t = Ok tt h' ∧ h' ≡ₚ item :: t)
  ∧ (∃ h', heappop (x :: t) = Ok x h' ∧ h' ≡ₚ t)
  ∧ (∃ h', heapreplace item (x :: t) = Ok x h' ∧ h' ≡ₚ item :: t).
Proof.
  split_and!.
  - destruct (heapify_runs t) as (h' & ? & _ & ?). by exists h'.
  - destruct (heappush_runs item t) as (h' & ? & _ & ?). by exists h'.
  - destruct (heappop_runs x t) as (h' & ? & ? & _). by exists h'.
  - destruct (heapreplace_runs item x t) as (h' & ? & ? & _). by exists h'.
Qed.

(** X16.  Called at a position inside the list, [_siftup] and [_siftdown]
    leave a permutation of the list, whatever [<] answers. *)
Theorem sift_permutes {A : Type} `{Ordered A} (pos : nat) (h : list A) :
  pos < length h →
  (∃ h', _siftup pos h = Ok tt h' ∧ h' ≡ₚ h)
  ∧ (∃ h', _siftdown pos h = Ok tt h' ∧ h' ≡ₚ h).
Proof.
  intros Hp. split.
  - destruct (_siftup_runs pos h Hp) as (h' & ? & _ & ?). by exists h'.
  - destruct (_siftdown_runs pos h Hp) as (h' & ? & _ & ?). by exists h'.
Qed.

Lemma sift_permutes_witness :
  (∃ h', _siftup 4 [3; 1; 2; 0; 8]%Z = Ok tt h' ∧ h' ≡ₚ [3; 1; 2; 0; 8]%Z)
  ∧ (∃ h', _siftdown 0 [3; 1; 2; 0; 8]%Z = Ok tt h' ∧ h' ≡ₚ [3; 1; 2; 0; 8]%Z).
Proof.
  split.
  - apply (proj1 (@sift_permutes Z Z_ordered 4 [3; 1; 2; 0; 8]%Z
                    ltac:(simpl; lia))).
  - apply (proj2 (@sift_permutes Z Z_ordered 0 [3; 1; 2; 0; 8]%Z
                    ltac:(simpl; lia))).
Defined.
